(** * curlyBrace: curly-bracket annotation between two points

    A shallow embedding of [src/curlyBrace.py] (functions [getAxSize] and
    [curlyBrace]) together with the properties of its geometry and of its
    label placement.

    Numbers are modelled in exact real arithmetic: a value of the program is
    a real number or one of the three special values of the floating-point
    format ([inf], [-inf], [nan]), which the numpy primitives produce on
    inputs outside their domain instead of raising.  Rounding is not
    modelled and zero carries no sign. *)

From Stdlib Require Import Reals Lra Lia List String Ascii ZArith Bool.
Import ListNotations.

Open Scope R_scope.

(** ** Numbers of the program *)

Inductive f64 : Type :=
| Fin (r : R)
| PInf
| NInf
| NaN.

Declare Scope f64_scope.
Delimit Scope f64_scope with f64.
Bind Scope f64_scope with f64.

Module np.

(** The infinity whose sign is the sign of [s]; [nan] when [s] is zero. *)
Definition inf_of_sign (s : R) : f64 :=
  if Req_dec_T s 0 then NaN else if Rlt_dec 0 s then PInf else NInf.

Definition neg (a : f64) : f64 :=
  match a with
  | Fin x => Fin (- x)
  | PInf => NInf
  | NInf => PInf
  | NaN => NaN
  end.

Definition add (a b : f64) : f64 :=
  match a, b with
  | NaN, _ | _, NaN => NaN
  | Fin x, Fin y => Fin (x + y)
  | PInf, NInf | NInf, PInf => NaN
  | PInf, _ | _, PInf => PInf
  | NInf, _ | _, NInf => NInf
  end.

Definition sub (a b : f64) : f64 := add a (neg b).

Definition mul (a b : f64) : f64 :=
  match a, b with
  | NaN, _ | _, NaN => NaN
  | Fin x, Fin y => Fin (x * y)
  | Fin x, PInf | PInf, Fin x => inf_of_sign x
  | Fin x, NInf | NInf, Fin x => inf_of_sign (- x)
  | PInf, PInf | NInf, NInf => PInf
  | PInf, NInf | NInf, PInf => NInf
  end.

(** Division of numpy scalars: a zero divisor gives an infinity or [nan]
    (with a warning), never an exception. *)
Definition div (a b : f64) : f64 :=
  match a, b with
  | NaN, _ | _, NaN => NaN
  | Fin x, Fin y => if Req_dec_T y 0 then inf_of_sign x else Fin (x / y)
  | Fin _, (PInf | NInf) => Fin 0
  | PInf, Fin y => if Rlt_dec y 0 then NInf else PInf
  | NInf, Fin y => if Rlt_dec y 0 then PInf else NInf
  | (PInf | NInf), (PInf | NInf) => NaN
  end.

(** [x % m] on floats: the remainder has the sign of the divisor. *)
Definition remainder (a m : f64) : f64 :=
  match a, m with
  | Fin x, Fin y =>
      if Req_dec_T y 0 then NaN else Fin (x - y * IZR (Zfloor (x / y)))
  | Fin x, PInf => if Rlt_dec x 0 then PInf else Fin x
  | Fin x, NInf => if Rlt_dec 0 x then NInf else Fin x
  | _, _ => NaN
  end.

(** Comparisons: every comparison with [nan] is false. *)
Definition le (a b : f64) : bool :=
  match a, b with
  | NaN, _ | _, NaN => false
  | Fin x, Fin y => if Rle_dec x y then true else false
  | NInf, _ | _, PInf => true
  | _, _ => false
  end.

Definition lt (a b : f64) : bool :=
  match a, b with
  | NaN, _ | _, NaN => false
  | Fin x, Fin y => if Rlt_dec x y then true else false
  | NInf, NInf | PInf, PInf => false
  | NInf, _ | _, PInf => true
  | _, _ => false
  end.

Definition ge (a b : f64) : bool := le b a.
Definition gt (a b : f64) : bool := lt b a.

Definition pi : f64 := Fin PI.

Definition log (a : f64) : f64 :=
  match a with
  | Fin x =>
      if Rlt_dec x 0 then NaN
      else if Req_dec_T x 0 then NInf
      else Fin (ln x)
  | PInf => PInf
  | NInf | NaN => NaN
  end.

Definition exp (a : f64) : f64 :=
  match a with
  | Fin x => Fin (Rtrigo_def.exp x)
  | PInf => PInf
  | NInf => Fin 0
  | NaN => NaN
  end.

Definition cos (a : f64) : f64 :=
  match a with Fin x => Fin (Rtrigo_def.cos x) | _ => NaN end.

Definition sin (a : f64) : f64 :=
  match a with Fin x => Fin (Rtrigo_def.sin x) | _ => NaN end.

(** Two-argument arctangent on the reals, with values in (-PI, PI]. *)
Definition atan2 (y x : R) : R :=
  if Rlt_dec 0 x then atan (y / x)
  else if Rlt_dec x 0 then
    if Rle_dec 0 y then atan (y / x) + PI else atan (y / x) - PI
  else if Rlt_dec 0 y then PI / 2
  else if Rlt_dec y 0 then - PI / 2
  else 0.

Definition arctan2 (y x : f64) : f64 :=
  match y, x with
  | NaN, _ | _, NaN => NaN
  | Fin b, Fin a => Fin (atan2 b a)
  | Fin _, PInf => Fin 0
  | Fin b, NInf => if Rlt_dec b 0 then Fin (- PI) else Fin PI
  | PInf, Fin _ => Fin (PI / 2)
  | NInf, Fin _ => Fin (- PI / 2)
  | PInf, PInf => Fin (PI / 4)
  | PInf, NInf => Fin (3 * PI / 4)
  | NInf, PInf => Fin (- PI / 4)
  | NInf, NInf => Fin (- (3 * PI / 4))
  end.

(** An infinite argument wins over [nan], as in C99. *)
Definition hypot (a b : f64) : f64 :=
  match a, b with
  | (PInf | NInf), _ | _, (PInf | NInf) => PInf
  | NaN, _ | _, NaN => NaN
  | Fin x, Fin y => Fin (sqrt (x * x + y * y))
  end.

Definition degrees (a : f64) : f64 := mul a (Fin (180 / PI)).

(** [np.linspace(start, stop, num)] with the end point included: the
    samples are [arange(0, num) * step + start], and the last one is then
    overwritten with [stop]. *)
Definition linspace (start stop : f64) (num : nat) : list f64 :=
  match num with
  | O => []
  | S O => [start]
  | S n =>
      let step := div (sub stop start) (Fin (INR n)) in
      map (fun i => add (mul (Fin (INR i)) step) start) (seq 0 n) ++ [stop]
  end.

End np.

Infix "+" := np.add : f64_scope.
Infix "-" := np.sub : f64_scope.
Infix "*" := np.mul : f64_scope.
Infix "/" := np.div : f64_scope.
Infix "<=?" := np.le (at level 70) : f64_scope.
Infix "<?" := np.lt (at level 70) : f64_scope.
Infix ">=?" := np.ge (at level 70) : f64_scope.
Infix ">?" := np.gt (at level 70) : f64_scope.

Local Open Scope string_scope.
Local Open Scope f64_scope.

(** ** The host drawing surface *)

(** What [curlyBrace] reads from the figure and from the axes.  The window
    extent of the axes is given in display units; [dpi_scale_trans] scales
    by the figure's dots per inch. *)
Record Figure : Type := { dpi : f64 }.

Record Axes : Type := {
  window_extent : f64 * f64;       (* width and height of get_window_extent() *)
  get_xlim : f64 * f64;
  get_ylim : f64 * f64;
  xaxis_scale : string;            (* get_xaxis().get_scale() *)
  yaxis_scale : string             (* get_yaxis().get_scale() *)
}.

(** What [curlyBrace] asks the axes to draw, in the order of the calls. *)
Inductive draw : Type :=
| Plot (xs ys : list f64)
| Text (x y : f64) (s : string) (rotation : f64).

(** The exceptions the two functions raise by themselves: the label is
    drawn with a [rotation] that no branch has assigned, and the scaling by
    the dots per inch of the figure cannot be inverted. *)
Inductive exn : Type :=
| UnboundLocalError
| LinAlgError.

(** ** Python and numpy idioms used by the body *)

(** ['log' in s] *)
Definition contains_log (s : string) : bool :=
  match index 0 "log" s with Some _ => true | None => false end.

Definition newline : string := String "010"%char EmptyString.

(** [s * n] on strings; a non-positive count gives the empty string. *)
Fixpoint str_repeat (s : string) (n : nat) : string :=
  match n with
  | O => EmptyString
  | S k => s ++ str_repeat s k
  end.

Definition str_mul (s : string) (n : Z) : string := str_repeat s (Z.to_nat n).

(** Truth value of a string. *)
Definition truthy (s : string) : bool :=
  match s with EmptyString => false | String _ _ => true end.

(** [a[-1]] and [a[1]] on the sampled arrays (which hold 50 values). *)
Definition at_last (a : list f64) : f64 := last a NaN.
Definition at_1 (a : list f64) : f64 := nth 1 a NaN.
Definition at_0 (a : list f64) : f64 := nth 0 a NaN.

(** ** getAxSize *)

(** [dpi_scale_trans] scales by the dots per inch; its matrix is singular
    exactly when they are zero, and [inverted()] then raises. *)
Definition singular (scale : f64) : bool :=
  match scale with
  | Fin d => if Req_dec_T d 0 then true else false
  | _ => false
  end.

(** The axes size in pixels, once the transform has been inverted: [bbox]
    is the window extent transformed by the inverse of [dpi_scale_trans],
    that is divided by the dots per inch; its width and height are then
    multiplied by them. *)
Definition ax_size (fig : Figure) (ax : Axes) : f64 * f64 :=
  let bbox_width := fst (window_extent ax) / dpi fig in
  let bbox_height := snd (window_extent ax) / dpi fig in
  let ax_width := bbox_width * dpi fig in
  let ax_height := bbox_height * dpi fig in
  (ax_width, ax_height).

(** The function itself: it raises when the transform has no inverse and
    returns the size otherwise. *)
Definition getAxSize (fig : Figure) (ax : Axes) : exn + (f64 * f64) :=
  if singular (dpi fig) then inl LinAlgError else inr (ax_size fig ax).

(** ** curlyBrace *)

(** The state after the forward transform (source lines 179-233), once
    [getAxSize] has returned: the two end points in pixel space, the two
    ratios of pixels per length and the axis limits (replaced by their
    logarithms on a logarithmic axis). *)
Record Frame : Type := {
  pt1 : f64 * f64;
  pt2 : f64 * f64;
  xscale : f64;
  yscale : f64;
  ax_xlim : f64 * f64;
  ax_ylim : f64 * f64
}.

Definition frame (fig : Figure) (ax : Axes) (p1 p2 : f64 * f64)
    (bool_auto : bool) : Frame :=
  let '(ax_width, ax_height) := ax_size fig ax in
  let ax_xlim := get_xlim ax in
  let ax_ylim := get_ylim ax in
  (* log scale consideration *)
  let '(pt1_0, pt2_0, ax_xlim) :=
    if contains_log (xaxis_scale ax)
    then (np.log (fst p1), np.log (fst p2),
          (np.log (fst ax_xlim), np.log (snd ax_xlim)))
    else (fst p1, fst p2, ax_xlim) in
  let '(pt1_1, pt2_1, ax_ylim) :=
    if contains_log (yaxis_scale ax)
    then (np.log (snd p1), np.log (snd p2),
          (np.log (fst ax_ylim), np.log (snd ax_ylim)))
    else (snd p1, snd p2, ax_ylim) in
  (* get the ratio of pixels/length *)
  let xscale := ax_width / (snd ax_xlim - fst ax_xlim) in
  let yscale := ax_height / (snd ax_ylim - fst ax_ylim) in
  (* this is to deal with 'equal' axes aspects *)
  let '(xscale, yscale) :=
    if bool_auto then (xscale, yscale) else (Fin 1, Fin 1) in
  (* convert length to pixels *)
  let pt1_0 := (pt1_0 - fst ax_xlim) * xscale in
  let pt1_1 := (pt1_1 - fst ax_ylim) * yscale in
  let pt2_0 := (pt2_0 - fst ax_xlim) * xscale in
  let pt2_1 := (pt2_1 - fst ax_ylim) * yscale in
  {| pt1 := (pt1_0, pt1_1); pt2 := (pt2_0, pt2_1);
     xscale := xscale; yscale := yscale;
     ax_xlim := ax_xlim; ax_ylim := ax_ylim |}.

(** The angle of the bracket (source line 236). *)
Definition angle (pt1 pt2 : f64 * f64) : f64 :=
  np.arctan2 (snd pt2 - snd pt1) (fst pt2 - fst pt1).

(** The radius of the arcs (source line 239). *)
Definition radius (pt1 pt2 : f64 * f64) (k_r : f64) : f64 :=
  np.hypot (fst pt2 - fst pt1) (snd pt2 - snd pt1) * k_r.

(** The four sampled arcs, each as its array of abscissas and its array of
    ordinates. *)
Record Arcs : Type := {
  arc1x : list f64; arc1y : list f64;
  arc2x : list f64; arc2y : list f64;
  arc3x : list f64; arc3y : list f64;
  arc4x : list f64; arc4y : list f64
}.

(** The arcs in pixel space (source lines 241-275). *)
Definition pixel_arcs (pt1 pt2 : f64 * f64) (k_r : f64) : Arcs :=
  let theta := angle pt1 pt2 in
  let r := radius pt1 pt2 k_r in
  (* arc1 centre *)
  let x11 := fst pt1 + r * np.cos theta in
  let y11 := snd pt1 + r * np.sin theta in
  (* arc2 centre *)
  let x22 := (fst pt2 + fst pt1) / Fin 2 - Fin 2 * r * np.sin theta
             - r * np.cos theta in
  let y22 := (snd pt2 + snd pt1) / Fin 2 + Fin 2 * r * np.cos theta
             - r * np.sin theta in
  (* arc3 centre *)
  let x33 := (fst pt2 + fst pt1) / Fin 2 - Fin 2 * r * np.sin theta
             + r * np.cos theta in
  let y33 := (snd pt2 + snd pt1) / Fin 2 + Fin 2 * r * np.cos theta
             + r * np.sin theta in
  (* arc4 centre *)
  let x44 := fst pt2 - r * np.cos theta in
  let y44 := snd pt2 - r * np.sin theta in
  (* prepare the rotated *)
  let q := np.linspace theta (theta + np.pi / Fin 2) 50 in
  (* reverse q *)
  let t := rev q in
  (* arc coordinates *)
  {| arc1x := map (fun a => r * np.cos (a + np.pi / Fin 2) + x11) t;
     arc1y := map (fun a => r * np.sin (a + np.pi / Fin 2) + y11) t;
     arc2x := map (fun a => r * np.cos (a - np.pi / Fin 2) + x22) q;
     arc2y := map (fun a => r * np.sin (a - np.pi / Fin 2) + y22) q;
     arc3x := map (fun a => r * np.cos (a + np.pi) + x33) q;
     arc3y := map (fun a => r * np.sin (a + np.pi) + y33) q;
     arc4x := map (fun a => r * np.cos a + x44) t;
     arc4y := map (fun a => r * np.sin a + y44) t |}.

(** One coordinate array converted back to the axis coordinates (source
    lines 277-309): divide by the ratio, add the lower limit back, and on a
    logarithmic axis exponentiate. *)
Definition to_axis (scale : string) (ratio lim0 : f64) (a : list f64)
    : list f64 :=
  let a := map (fun v => v / ratio + lim0) a in
  if contains_log scale then map np.exp a else a.

(** The same conversion on one value. *)
Definition back (scale : string) (ratio lim0 v : f64) : f64 :=
  let v := v / ratio + lim0 in
  if contains_log scale then np.exp v else v.

Definition axis_arcs (ax : Axes) (fr : Frame) (a : Arcs) : Arcs :=
  let tx := to_axis (xaxis_scale ax) (xscale fr) (fst (ax_xlim fr)) in
  let ty := to_axis (yaxis_scale ax) (yscale fr) (fst (ax_ylim fr)) in
  {| arc1x := tx (arc1x a); arc1y := ty (arc1y a);
     arc2x := tx (arc2x a); arc2y := ty (arc2y a);
     arc3x := tx (arc3x a); arc3y := ty (arc3y a);
     arc4x := tx (arc4x a); arc4y := ty (arc4y a) |}.

(** The label (source lines 325-348): the rotation, unassigned ([None])
    until a branch sets it, and the padded text.  The first test is an [if]
    of its own; the second and third form an [if]/[elif]. *)
Definition label (theta : f64) (str_text : string) (int_line_num : Z)
    : option f64 * string :=
  let str_temp := str_mul newline int_line_num in
  (* convert radians to degree and within 0 to 360 *)
  let ang := np.remainder (np.degrees theta) (Fin 360) in
  let '(rotation, str_text) :=
    if (ang >=? Fin 0) && (ang <=? Fin 90)
    then (Some ang, str_text ++ str_temp)
    else (None, str_text) in
  if (ang >? Fin 90) && (ang <? Fin 270)
  then (Some (ang + Fin 180), str_temp ++ str_text)
  else if (ang >=? Fin 270) && (ang <=? Fin 360)
  then (Some ang, str_text ++ str_temp)
  else (rotation, str_text).

(** What the call returns: [theta, summit, arc1, arc2, arc3, arc4]. *)
Record BraceResult : Type := {
  theta : f64;
  summit : f64 * f64;
  arc1 : list f64 * list f64;
  arc2 : list f64 * list f64;
  arc3 : list f64 * list f64;
  arc4 : list f64 * list f64
}.

(** The geometry (source lines 179-321 and 356-361), once [getAxSize] has
    returned: the draw calls for the four arcs and the two connecting lines,
    and the value to return. *)
Definition brace (fig : Figure) (ax : Axes) (p1 p2 : f64 * f64)
    (k_r : f64) (bool_auto : bool) : list draw * BraceResult :=
  let fr := frame fig ax p1 p2 bool_auto in
  let theta := angle (pt1 fr) (pt2 fr) in
  (* arcs, converted back to the axis coordinates *)
  let a := axis_arcs ax fr (pixel_arcs (pt1 fr) (pt2 fr) k_r) in
  let plots :=
    (* plot arcs *)
    [ Plot (arc1x a) (arc1y a);
      Plot (arc2x a) (arc2y a);
      Plot (arc3x a) (arc3y a);
      Plot (arc4x a) (arc4y a);
    (* plot lines *)
      Plot [at_last (arc1x a); at_1 (arc2x a)]
           [at_last (arc1y a); at_1 (arc2y a)];
      Plot [at_last (arc3x a); at_1 (arc4x a)]
           [at_last (arc3y a); at_1 (arc4y a)] ] in
  let summit := (at_last (arc2x a), at_last (arc2y a)) in
  (plots,
   {| theta := theta; summit := summit;
      arc1 := (arc1x a, arc1y a); arc2 := (arc2x a, arc2y a);
      arc3 := (arc3x a, arc3y a); arc4 := (arc4x a, arc4y a) |}).

(** The whole call: the draw calls issued on the axes, in order, and either
    the returned value or the exception that ended the call.  The call to
    [getAxSize] comes first (source line 182): when it raises, nothing has
    been drawn. *)
Definition curlyBrace (fig : Figure) (ax : Axes) (p1 p2 : f64 * f64)
    (k_r : f64) (bool_auto : bool) (str_text : string) (int_line_num : Z)
    : list draw * (exn + BraceResult) :=
  match getAxSize fig ax with
  | inl e => ([], inl e)
  | inr _ =>
      let '(plots, result) := brace fig ax p1 p2 k_r bool_auto in
      if truthy str_text then
        match label (theta result) str_text int_line_num with
        | (Some rotation, str_text) =>
            ((plots ++ [Text (at_last (fst (arc2 result)))
                             (at_last (snd (arc2 result)))
                             str_text rotation])%list,
             inr result)
        | (None, _) => (plots, inl UnboundLocalError)
        end
      else (plots, inr result)
  end.

(** ** Well-formed calls

    The conditions the host and the caller are expected to meet: a laid-out
    region of positive size, finite and distinct axis limits, finite end
    points and gain, and strictly positive limits and coordinates on a
    logarithmic axis. *)

Definition is_finite (a : f64) : Prop :=
  match a with Fin _ => True | _ => False end.

Definition is_positive (a : f64) : Prop :=
  match a with Fin r => (0 < r)%R | _ => False end.

Definition valid_axis (scale : string) (lim : f64 * f64) (c1 c2 : f64)
    : Prop :=
  is_finite (fst lim) /\ is_finite (snd lim) /\ fst lim <> snd lim /\
  is_finite c1 /\ is_finite c2 /\
  (contains_log scale = true ->
   is_positive (fst lim) /\ is_positive (snd lim) /\
   is_positive c1 /\ is_positive c2).

Definition valid_call (fig : Figure) (ax : Axes) (p1 p2 : f64 * f64)
    (k_r : f64) : Prop :=
  is_positive (dpi fig) /\
  is_positive (fst (window_extent ax)) /\
  is_positive (snd (window_extent ax)) /\
  valid_axis (xaxis_scale ax) (get_xlim ax) (fst p1) (fst p2) /\
  valid_axis (yaxis_scale ax) (get_ylim ax) (snd p1) (snd p2) /\
  is_finite k_r.

(** The text a call drew, with its rotation, if it drew one. *)
Definition drawn_label (ds : list draw) : option (f64 * string) :=
  match last ds (Plot [] []) with
  | Text _ _ s rotation => Some (rotation, s)
  | Plot _ _ => None
  end.

(** ** Auxiliary definitions for the statements *)

(** *** Real-valued readings of the pixel-space construction *)

(** The real samples behind [np.linspace] on finite bounds. *)
Definition samples (a b : R) (n : nat) : list R :=
  (map (fun i => INR i * ((b - a) / INR (S n)) + a) (seq 0 (S n)) ++ [b])%R%list.

(** The angle and the radius of the bracket between two finite pixel-space
    end points. *)
Definition pixel_angle (x1 y1 x2 y2 : R) : R :=
  np.atan2 (y2 - y1) (x2 - x1).

Definition pixel_radius (x1 y1 x2 y2 k : R) : R :=
  (sqrt ((x2 - x1) * (x2 - x1) + (y2 - y1) * (y2 - y1)) * k)%R.

(** The 50 sampled angles [q] of a finite bracket angle. *)
Definition pixel_samples (th : R) : list R := samples th (th + PI / 2) 48.

(** Every coordinate array of the four arcs holds [n] values. *)
Definition all_length (n : nat) (a : Arcs) : Prop :=
  List.length (arc1x a) = n /\ List.length (arc1y a) = n /\
  List.length (arc2x a) = n /\ List.length (arc2y a) = n /\
  List.length (arc3x a) = n /\ List.length (arc3y a) = n /\
  List.length (arc4x a) = n /\ List.length (arc4y a) = n.

(** *** The forward transform, one axis at a time *)

(** A coordinate as the body uses it: its natural logarithm on a
    logarithmic axis, itself on any other. *)
Definition axis_coord (scale : string) (c : f64) : f64 :=
  if contains_log scale then np.log c else c.

(** The limits of an axis as the body uses them. *)
Definition axis_lim (scale : string) (lim : f64 * f64) : f64 * f64 :=
  if contains_log scale then (np.log (fst lim), np.log (snd lim)) else lim.

(** The ratio of pixels per length of an axis, forced to 1 when the
    automatic scaling is off. *)
Definition axis_ratio (extent : f64) (lim : f64 * f64) (bool_auto : bool)
    : f64 :=
  if bool_auto then extent / (snd lim - fst lim) else Fin 1.

(** A coordinate converted to pixels. *)
Definition axis_pixel (scale : string) (extent : f64) (lim : f64 * f64)
    (bool_auto : bool) (c : f64) : f64 :=
  (axis_coord scale c - fst (axis_lim scale lim))
  * axis_ratio extent (axis_lim scale lim) bool_auto.

(** *** The label *)

(** The angle in degrees, brought within 0 to 360. *)
Definition ang_deg (th : R) : R :=
  (th * (180 / PI) - 360 * IZR (Zfloor (th * (180 / PI) / 360)))%R.

(** The angle in degrees, before it is brought within 0 to 360. *)
Definition signed_deg (th : R) : R := (th * (180 / PI))%R.

(** What the label adds to the draw calls of the geometry. *)
Definition label_draw (res : BraceResult) (str_text : string)
    (int_line_num : Z) : list draw :=
  if truthy str_text then
    match label (theta res) str_text int_line_num with
    | (Some rotation, txt) =>
        [Text (at_last (fst (arc2 res))) (at_last (snd (arc2 res))) txt rotation]
    | (None, _) => []
    end
  else [].

(** The line plots among the draw calls. *)
Definition plots_of (ds : list draw) : list draw :=
  filter (fun d => match d with Plot _ _ => true | Text _ _ _ _ => false end) ds.

(** *** Circles

    The sampled points, given by their abscissas and their ordinates, are
    finite and lie on the circle of centre [(cx, cy)] whose radius has the
    square [r2]. *)
Definition on_circle (cx cy r2 : R) (xs ys : list f64) : Prop :=
  Forall2
    (fun x y =>
       exists a b : R,
         x = Fin a /\ y = Fin b /\
         ((a - cx) * (a - cx) + (b - cy) * (b - cy) = r2)%R)
    xs ys.

(** *** A worked call

    The end-to-end scenario: linear axes with limits (0, 2) on both, a
    region of 640 by 480 display units at 100 dots per inch, end points
    (0, 0) and (1, 1), gain 0.1. *)

Definition fig0 : Figure := {| dpi := Fin 100 |}.

Definition ax0 : Axes :=
  {| window_extent := (Fin 640, Fin 480);
     get_xlim := (Fin 0, Fin 2);
     get_ylim := (Fin 0, Fin 2);
     xaxis_scale := "linear";
     yaxis_scale := "linear" |}.

(** The same region with a logarithmic x axis with limits (1, 100). *)
Definition ax_logx : Axes :=
  {| window_extent := (Fin 640, Fin 480);
     get_xlim := (Fin 1, Fin 100);
     get_ylim := (Fin 0, Fin 2);
     xaxis_scale := "log";
     yaxis_scale := "linear" |}.

(** * Properties *)

(** ** Arithmetic on finite values *)

Lemma div_Fin (a b : R) : b <> 0%R -> Fin a / Fin b = Fin (a / b).
Proof.
  intros Hb. unfold np.div. destruct (Req_dec_T b 0); [contradiction | reflexivity].
Qed.

Lemma log_Fin (x : R) : (0 < x)%R -> np.log (Fin x) = Fin (ln x).
Proof.
  intros Hx. unfold np.log.
  destruct (Rlt_dec x 0); [lra |].
  destruct (Req_dec_T x 0); [lra | reflexivity].
Qed.

Lemma is_finite_Fin (a : f64) : is_finite a -> exists r, a = Fin r.
Proof. destruct a; simpl; intros H; try contradiction. now exists r. Qed.

Lemma is_positive_Fin (a : f64) :
  is_positive a -> exists r, a = Fin r /\ (0 < r)%R.
Proof. destruct a; simpl; intros H; try contradiction. now exists r. Qed.

Lemma half_pi : np.pi / Fin 2 = Fin (PI / 2).
Proof. unfold np.pi. apply div_Fin. lra. Qed.

Lemma half_sum_Fin (a b : R) : (Fin a + Fin b) / Fin 2 = Fin ((a + b) / 2).
Proof. change (Fin a + Fin b) with (Fin (a + b)). apply div_Fin. lra. Qed.

(** ** Indexing the sampled arrays *)

Section Indexing.
Context {A B : Type}.

Lemma last_of_map (f : A -> B) (l : list A) (da : A) (db : B) :
  l <> [] -> last (map f l) db = f (last l da).
Proof.
  induction l as [| a [| b l] IH]; intros Hl.
  - contradiction.
  - reflexivity.
  - change (last (map f (b :: l)) db = f (last (b :: l) da)).
    apply IH. discriminate.
Qed.

Lemma first_of_map (f : A -> B) (l : list A) (da : A) (db : B) :
  l <> [] -> nth 0 (map f l) db = f (nth 0 l da).
Proof. destruct l; [contradiction | reflexivity]. Qed.

Lemma last_of_rev (l : list A) (d : A) : last (rev l) d = nth 0 l d.
Proof. destruct l as [| a l]; [reflexivity |]. simpl. apply last_last. Qed.

Lemma first_of_rev (l : list A) (d : A) : nth 0 (rev l) d = last l d.
Proof. rewrite <- (rev_involutive l) at 2. now rewrite last_of_rev. Qed.

End Indexing.

Lemma map_constant {A B : Type} (f : A -> B) (c : B) (l : list A) :
  (forall a, In a l -> f a = c) -> map f l = repeat c (List.length l).
Proof.
  induction l as [| a l IH]; intros H; simpl.
  - reflexivity.
  - rewrite H by (now left). f_equal. apply IH. intros b Hb. apply H. now right.
Qed.

(** ** The sampled angles *)

Arguments np.linspace : simpl never.

Lemma linspace_Fin (a b : R) (n : nat) :
  np.linspace (Fin a) (Fin b) (S (S n)) = map Fin (samples a b n).
Proof.
  unfold np.linspace, samples.
  rewrite map_app, map_map. f_equal.
  apply map_ext. intros i.
  change (Fin b - Fin a) with (Fin (b - a)).
  rewrite div_Fin by (apply not_0_INR; discriminate).
  reflexivity.
Qed.

Lemma samples_length (a b : R) (n : nat) : List.length (samples a b n) = S (S n).
Proof.
  unfold samples. rewrite length_app, length_map, length_seq. simpl. lia.
Qed.

Lemma samples_first (a b : R) (n : nat) : nth 0 (samples a b n) 0%R = a.
Proof.
  unfold samples. rewrite <- cons_seq. cbn [map app nth].
  change (INR 0) with 0%R. lra.
Qed.

Lemma samples_last (a b : R) (n : nat) : last (samples a b n) 0%R = b.
Proof. unfold samples. apply last_last. Qed.

Lemma samples_nonempty (a b : R) (n : nat) : samples a b n <> [].
Proof.
  intros H. apply (f_equal (@List.length R)) in H.
  rewrite samples_length in H. discriminate.
Qed.

(** ** The pixel-space construction on finite end points *)

Lemma angle_Fin (x1 y1 x2 y2 : R) :
  angle (Fin x1, Fin y1) (Fin x2, Fin y2) = Fin (pixel_angle x1 y1 x2 y2).
Proof. reflexivity. Qed.

Lemma radius_Fin (x1 y1 x2 y2 k : R) :
  radius (Fin x1, Fin y1) (Fin x2, Fin y2) (Fin k)
  = Fin (pixel_radius x1 y1 x2 y2 k).
Proof. reflexivity. Qed.

Lemma pixel_arcs_Fin (x1 y1 x2 y2 k : R) :
  let th := pixel_angle x1 y1 x2 y2 in
  let r := pixel_radius x1 y1 x2 y2 k in
  let q := pixel_samples th in
  let t := rev q in
  pixel_arcs (Fin x1, Fin y1) (Fin x2, Fin y2) (Fin k) =
  {| arc1x := map (fun a => Fin (r * cos (a + PI / 2) + (x1 + r * cos th))) t;
     arc1y := map (fun a => Fin (r * sin (a + PI / 2) + (y1 + r * sin th))) t;
     arc2x := map (fun a => Fin (r * cos (a - PI / 2)
                 + ((x2 + x1) / 2 - 2 * r * sin th - r * cos th))) q;
     arc2y := map (fun a => Fin (r * sin (a - PI / 2)
                 + ((y2 + y1) / 2 + 2 * r * cos th - r * sin th))) q;
     arc3x := map (fun a => Fin (r * cos (a + PI)
                 + ((x2 + x1) / 2 - 2 * r * sin th + r * cos th))) q;
     arc3y := map (fun a => Fin (r * sin (a + PI)
                 + ((y2 + y1) / 2 + 2 * r * cos th + r * sin th))) q;
     arc4x := map (fun a => Fin (r * cos a + (x2 - r * cos th))) t;
     arc4y := map (fun a => Fin (r * sin a + (y2 - r * sin th))) t |}.
Proof.
  intros th r q t. unfold pixel_arcs.
  rewrite angle_Fin, radius_Fin. fold th r.
  rewrite half_pi.
  change (Fin th + Fin (PI / 2)) with (Fin (th + PI / 2)).
  rewrite linspace_Fin. fold (pixel_samples th). fold q.
  rewrite <- map_rev. fold t.
  rewrite !map_map. cbn [fst snd].
  change (Fin x2 + Fin x1) with (Fin (x2 + x1)).
  change (Fin y2 + Fin y1) with (Fin (y2 + y1)).
  rewrite !div_Fin by lra.
  reflexivity.
Qed.

(** ** Quarter and half turns *)

Lemma cos_add_quarter (a : R) : cos (a + PI / 2) = (- sin a)%R.
Proof. rewrite cos_plus, cos_PI2, sin_PI2. ring. Qed.

Lemma sin_add_quarter (a : R) : sin (a + PI / 2) = cos a.
Proof. rewrite sin_plus, cos_PI2, sin_PI2. ring. Qed.

Lemma cos_sub_quarter (a : R) : cos (a - PI / 2) = sin a.
Proof. rewrite cos_minus, cos_PI2, sin_PI2. ring. Qed.

Lemma sin_sub_quarter (a : R) : sin (a - PI / 2) = (- cos a)%R.
Proof. rewrite sin_minus, cos_PI2, sin_PI2. ring. Qed.

(** ** The two-argument arctangent *)

Lemma atan_nonpos (t : R) : (t <= 0)%R -> (atan t <= 0)%R.
Proof.
  intros [Ht | Ht].
  - left. rewrite <- atan_0. now apply atan_increasing.
  - subst t. rewrite atan_0. lra.
Qed.

Lemma atan_pos (t : R) : (0 < t)%R -> (0 < atan t)%R.
Proof. intros Ht. rewrite <- atan_0. now apply atan_increasing. Qed.

Lemma atan2_bounds (y x : R) : (- PI < np.atan2 y x <= PI)%R.
Proof.
  pose proof PI_RGT_0 as Hpi. unfold np.atan2.
  destruct (Rlt_dec 0 x) as [Hx | Hx].
  - pose proof (atan_bound (y / x)). lra.
  - destruct (Rlt_dec x 0) as [Hx' | Hx'].
    + pose proof (atan_bound (y / x)) as Hb.
      destruct (Rle_dec 0 y) as [Hy | Hy].
      * assert (y / x <= 0)%R.
        { unfold Rdiv. assert (/ x < 0)%R by now apply Rinv_lt_0_compat. nra. }
        pose proof (atan_nonpos _ H). lra.
      * assert (0 < y / x)%R.
        { unfold Rdiv. assert (/ x < 0)%R by now apply Rinv_lt_0_compat. nra. }
        pose proof (atan_pos _ H). lra.
    + destruct (Rlt_dec 0 y); [lra |]. destruct (Rlt_dec y 0); lra.
Qed.

(** Off the vertical the angle is no quarter turn. *)
Lemma atan2_not_vertical (y x : R) :
  x <> 0%R -> np.atan2 y x <> (PI / 2)%R /\ np.atan2 y x <> (- PI / 2)%R.
Proof.
  intros Hx. pose proof PI_RGT_0 as Hpi. unfold np.atan2.
  pose proof (atan_bound (y / x)) as Hb.
  destruct (Rlt_dec 0 x) as [H0 | H0]; [lra |].
  destruct (Rlt_dec x 0) as [H1 | H1]; [| lra].
  destruct (Rle_dec 0 y) as [Hy | Hy].
  - assert (y / x <= 0)%R.
    { unfold Rdiv. assert (/ x < 0)%R by now apply Rinv_lt_0_compat. nra. }
    pose proof (atan_nonpos _ H). lra.
  - assert (0 < y / x)%R.
    { unfold Rdiv. assert (/ x < 0)%R by now apply Rinv_lt_0_compat. nra. }
    pose proof (atan_pos _ H). lra.
Qed.

(** Reversing a non-degenerate direction turns the angle by half a turn. *)
Lemma atan2_reverse (y x : R) :
  x <> 0%R \/ y <> 0%R ->
  np.atan2 (- y) (- x) = (np.atan2 y x + PI)%R \/
  np.atan2 (- y) (- x) = (np.atan2 y x - PI)%R.
Proof.
  intros Hxy. unfold np.atan2.
  destruct (Rlt_dec 0 x) as [H0 | H0].
  - replace (- y / - x)%R with (y / x)%R by (field; lra).
    destruct (Rlt_dec 0 (- x)); [lra |].
    destruct (Rlt_dec (- x) 0); [| lra].
    destruct (Rle_dec 0 (- y)); [now left | now right].
  - destruct (Rlt_dec x 0) as [H1 | H1].
    + replace (- y / - x)%R with (y / x)%R by (field; lra).
      destruct (Rlt_dec 0 (- x)); [| lra].
      destruct (Rle_dec 0 y); [right | left]; lra.
    + assert (x = 0%R) by lra. subst x.
      destruct (Rlt_dec 0 (- 0)); [lra |].
      destruct (Rlt_dec (- 0) 0); [lra |].
      destruct (Rlt_dec 0 y) as [Hy | Hy].
      * destruct (Rlt_dec 0 (- y)); [lra |].
        destruct (Rlt_dec (- y) 0); [| lra]. right. lra.
      * destruct (Rlt_dec y 0) as [Hy' | Hy']; [| lra].
        destruct (Rlt_dec 0 (- y)); [| lra]. left. lra.
Qed.


(** The chord in polar form: its length times the cosine (sine) of its
    angle gives back its horizontal (vertical) extent. *)
Lemma hypot_scale (y x : R) :
  x <> 0%R ->
  sqrt (x * x + y * y) = (Rabs x * sqrt (1 + Rsqr (y / x)))%R.
Proof.
  intros Hx.
  assert (Hpos : (0 < 1 + Rsqr (y / x))%R).
  { pose proof (Rle_0_sqr (y / x)). lra. }
  apply sqrt_lem_1.
  - nra.
  - apply Rmult_le_pos; [apply Rabs_pos | apply sqrt_pos].
  - replace (Rabs x * sqrt (1 + Rsqr (y / x)) * (Rabs x * sqrt (1 + Rsqr (y / x))))%R
      with ((Rabs x * Rabs x) * (sqrt (1 + Rsqr (y / x)) * sqrt (1 + Rsqr (y / x))))%R
      by ring.
    rewrite sqrt_def by lra.
    replace (Rabs x * Rabs x)%R with (x * x)%R.
    + unfold Rsqr. field. exact Hx.
    + unfold Rabs. destruct (Rcase_abs x); ring.
Qed.

Lemma sqrt_one_plus_sqr_neq_0 (t : R) : sqrt (1 + Rsqr t) <> 0%R.
Proof.
  pose proof (Rle_0_sqr t).
  assert (0 < sqrt (1 + Rsqr t))%R by (apply sqrt_lt_R0; lra). lra.
Qed.

Ltac field_polar :=
  field; repeat split; first [lra | apply sqrt_one_plus_sqr_neq_0].

Lemma polar_cos (y x : R) :
  (sqrt (x * x + y * y) * cos (np.atan2 y x))%R = x.
Proof.
  unfold np.atan2.
  destruct (Rlt_dec 0 x) as [H0 | H0].
  - rewrite hypot_scale by lra. rewrite cos_atan, Rabs_pos_eq by lra.
    field_polar.
  - destruct (Rlt_dec x 0) as [H1 | H1].
    + rewrite hypot_scale by lra. rewrite Rabs_left by lra.
      destruct (Rle_dec 0 y).
      * rewrite neg_cos, cos_atan. field_polar.
      * rewrite cos_minus, cos_PI, sin_PI, cos_atan. field_polar.
    + assert (x = 0%R) by lra. subst x.
      destruct (Rlt_dec 0 y).
      * rewrite cos_PI2. ring.
      * destruct (Rlt_dec y 0).
        -- replace (- PI / 2)%R with (- (PI / 2))%R by field.
           rewrite cos_neg, cos_PI2. ring.
        -- assert (y = 0%R) by lra. subst y.
           replace (0 * 0 + 0 * 0)%R with 0%R by ring. rewrite sqrt_0. ring.
Qed.

Lemma polar_sin (y x : R) :
  (sqrt (x * x + y * y) * sin (np.atan2 y x))%R = y.
Proof.
  unfold np.atan2.
  destruct (Rlt_dec 0 x) as [H0 | H0].
  - rewrite hypot_scale by lra. rewrite sin_atan, Rabs_pos_eq by lra.
    field_polar.
  - destruct (Rlt_dec x 0) as [H1 | H1].
    + rewrite hypot_scale by lra. rewrite Rabs_left by lra.
      destruct (Rle_dec 0 y).
      * rewrite neg_sin, sin_atan. field_polar.
      * rewrite sin_minus, cos_PI, sin_PI, sin_atan.
        field_polar.
    + assert (x = 0%R) by lra. subst x.
      replace (0 * 0 + y * y)%R with (y * y)%R by ring.
      destruct (Rlt_dec 0 y).
      * rewrite sin_PI2, sqrt_square by lra. ring.
      * destruct (Rlt_dec y 0).
        -- replace (- PI / 2)%R with (- (PI / 2))%R by field.
           rewrite sin_neg, sin_PI2.
           replace (y * y)%R with ((- y) * (- y))%R by ring.
           rewrite sqrt_square by lra. ring.
        -- assert (y = 0%R) by lra. subst y.
           replace (0 * 0)%R with 0%R by ring. rewrite sqrt_0. ring.
Qed.

(** ** The sampled arrays hold 50 values *)

Lemma linspace_length (a b : f64) (n : nat) :
  List.length (np.linspace a b n) = n.
Proof.
  unfold np.linspace. destruct n as [| [| n]]; try reflexivity.
  rewrite length_app, length_map, length_seq. simpl. lia.
Qed.

Lemma to_axis_map (scale : string) (ratio lim0 : f64) (a : list f64) :
  to_axis scale ratio lim0 a = map (back scale ratio lim0) a.
Proof.
  unfold to_axis, back. destruct (contains_log scale).
  - now rewrite map_map.
  - reflexivity.
Qed.

Lemma to_axis_length (scale : string) (ratio lim0 : f64) (a : list f64) :
  List.length (to_axis scale ratio lim0 a) = List.length a.
Proof. rewrite to_axis_map. apply length_map. Qed.

Lemma pixel_arcs_length (pt1 pt2 : f64 * f64) (k_r : f64) :
  all_length 50 (pixel_arcs pt1 pt2 k_r).
Proof.
  unfold all_length, pixel_arcs. cbn [arc1x arc1y arc2x arc2y arc3x arc3y arc4x arc4y].
  rewrite !length_map, length_rev, linspace_length. tauto.
Qed.

Lemma nonempty_of_length {A : Type} (l : list A) (n : nat) :
  List.length l = S n -> l <> [].
Proof. intros H ->. discriminate. Qed.

(** Each end of a converted array is the conversion of that end. *)
Lemma to_axis_last (scale : string) (ratio lim0 : f64) (a : list f64) :
  a <> [] -> at_last (to_axis scale ratio lim0 a) = back scale ratio lim0 (at_last a).
Proof. intros H. rewrite to_axis_map. unfold at_last. now apply last_of_map. Qed.

Lemma to_axis_first (scale : string) (ratio lim0 : f64) (a : list f64) :
  a <> [] -> at_0 (to_axis scale ratio lim0 a) = back scale ratio lim0 (at_0 a).
Proof. intros H. rewrite to_axis_map. unfold at_0. now apply first_of_map. Qed.

(** ** Ends of the arcs in pixel space *)

Lemma pixel_samples_nonempty (th : R) : pixel_samples th <> [].
Proof. apply samples_nonempty. Qed.

Lemma rev_samples_nonempty (th : R) : rev (pixel_samples th) <> [].
Proof.
  intros H. apply (f_equal (@rev R)) in H. rewrite rev_involutive in H.
  now apply (pixel_samples_nonempty th).
Qed.

Lemma radius_cos (x1 y1 x2 y2 k : R) :
  (pixel_radius x1 y1 x2 y2 k * cos (pixel_angle x1 y1 x2 y2))%R
  = (k * (x2 - x1))%R.
Proof.
  unfold pixel_radius, pixel_angle.
  pose proof (polar_cos (y2 - y1) (x2 - x1)) as H.
  rewrite Rmult_assoc, (Rmult_comm k), <- Rmult_assoc, H. ring.
Qed.

Lemma radius_sin (x1 y1 x2 y2 k : R) :
  (pixel_radius x1 y1 x2 y2 k * sin (pixel_angle x1 y1 x2 y2))%R
  = (k * (y2 - y1))%R.
Proof.
  unfold pixel_radius, pixel_angle.
  pose proof (polar_sin (y2 - y1) (x2 - x1)) as H.
  rewrite Rmult_assoc, (Rmult_comm k), <- Rmult_assoc, H. ring.
Qed.

(** Reduce the first or the last value of a sampled array of
    [pixel_arcs] on finite end points to an equation between reals, with
    the products of the radius by the cosine and the sine of the angle
    named [rc] and [rs]. *)
Ltac arc_end :=
  rewrite pixel_arcs_Fin;
  cbn [arc1x arc1y arc2x arc2y arc3x arc3y arc4x arc4y];
  unfold at_0, at_last;
  first [ rewrite (first_of_map _ _ 0%R) by
            first [apply rev_samples_nonempty | apply pixel_samples_nonempty]
        | rewrite (last_of_map _ _ 0%R) by
            first [apply rev_samples_nonempty | apply pixel_samples_nonempty] ];
  try rewrite first_of_rev; try rewrite last_of_rev;
  unfold pixel_samples;
  try rewrite samples_first; try rewrite samples_last;
  f_equal;
  repeat match goal with
    | |- context [cos (?a + PI / 2 + PI / 2)] =>
        replace (a + PI / 2 + PI / 2)%R with (a + PI)%R by field
    | |- context [sin (?a + PI / 2 + PI / 2)] =>
        replace (a + PI / 2 + PI / 2)%R with (a + PI)%R by field
    | |- context [cos (?a + PI / 2 - PI / 2)] =>
        replace (a + PI / 2 - PI / 2)%R with a by field
    | |- context [sin (?a + PI / 2 - PI / 2)] =>
        replace (a + PI / 2 - PI / 2)%R with a by field
    end;
  rewrite ?neg_cos, ?neg_sin, ?cos_add_quarter, ?sin_add_quarter,
    ?cos_sub_quarter, ?sin_sub_quarter;
  match goal with
  | |- context [pixel_radius ?x1 ?y1 ?x2 ?y2 ?k] =>
      pose proof (radius_cos x1 y1 x2 y2 k) as Hrc;
      pose proof (radius_sin x1 y1 x2 y2 k) as Hrs;
      set (r := pixel_radius x1 y1 x2 y2 k) in *;
      set (c := cos (pixel_angle x1 y1 x2 y2)) in *;
      set (s := sin (pixel_angle x1 y1 x2 y2)) in *
  end.

Section PixelEnds.
Variables x1 y1 x2 y2 k : R.

Let a := pixel_arcs (Fin x1, Fin y1) (Fin x2, Fin y2) (Fin k).

Lemma arc1_first :
  at_0 (arc1x a) = Fin x1 /\ at_0 (arc1y a) = Fin y1.
Proof. subst a. split; arc_end; ring. Qed.

Lemma arc1_last :
  at_last (arc1x a) = Fin (x1 + k * ((x2 - x1) - (y2 - y1))) /\
  at_last (arc1y a) = Fin (y1 + k * ((y2 - y1) + (x2 - x1))).
Proof. subst a. split; arc_end; lra. Qed.

Lemma arc2_first :
  at_0 (arc2x a) = Fin ((x2 + x1) / 2 - k * ((y2 - y1) + (x2 - x1))) /\
  at_0 (arc2y a) = Fin ((y2 + y1) / 2 + k * ((x2 - x1) - (y2 - y1))).
Proof. subst a. split; arc_end; lra. Qed.

Lemma arc2_last :
  at_last (arc2x a) = Fin ((x2 + x1) / 2 - 2 * k * (y2 - y1)) /\
  at_last (arc2y a) = Fin ((y2 + y1) / 2 + 2 * k * (x2 - x1)).
Proof. subst a. split; arc_end; lra. Qed.

Lemma arc3_first :
  at_0 (arc3x a) = Fin ((x2 + x1) / 2 - 2 * k * (y2 - y1)) /\
  at_0 (arc3y a) = Fin ((y2 + y1) / 2 + 2 * k * (x2 - x1)).
Proof. subst a. split; arc_end; lra. Qed.

Lemma arc3_last :
  at_last (arc3x a) = Fin ((x2 + x1) / 2 + k * ((x2 - x1) - (y2 - y1))) /\
  at_last (arc3y a) = Fin ((y2 + y1) / 2 + k * ((x2 - x1) + (y2 - y1))).
Proof. subst a. split; arc_end; lra. Qed.

Lemma arc4_first :
  at_0 (arc4x a) = Fin (x2 - k * ((x2 - x1) + (y2 - y1))) /\
  at_0 (arc4y a) = Fin (y2 + k * ((x2 - x1) - (y2 - y1))).
Proof. subst a. split; arc_end; lra. Qed.

Lemma arc4_last :
  at_last (arc4x a) = Fin x2 /\ at_last (arc4y a) = Fin y2.
Proof. subst a. split; arc_end; ring. Qed.

End PixelEnds.

(** ** The forward transform on a well-formed axis *)

Lemma frame_by_axis (fig : Figure) (ax : Axes) (p1 p2 : f64 * f64)
    (bool_auto : bool) :
  let w := fst (ax_size fig ax) in
  let h := snd (ax_size fig ax) in
  let xs := xaxis_scale ax in
  let ys := yaxis_scale ax in
  frame fig ax p1 p2 bool_auto =
  {| pt1 := (axis_pixel xs w (get_xlim ax) bool_auto (fst p1),
             axis_pixel ys h (get_ylim ax) bool_auto (snd p1));
     pt2 := (axis_pixel xs w (get_xlim ax) bool_auto (fst p2),
             axis_pixel ys h (get_ylim ax) bool_auto (snd p2));
     xscale := axis_ratio w (axis_lim xs (get_xlim ax)) bool_auto;
     yscale := axis_ratio h (axis_lim ys (get_ylim ax)) bool_auto;
     ax_xlim := axis_lim xs (get_xlim ax);
     ax_ylim := axis_lim ys (get_ylim ax) |}.
Proof.
  unfold frame, axis_pixel, axis_coord, axis_lim, axis_ratio, ax_size.
  cbn [fst snd].
  destruct (contains_log (xaxis_scale ax)), (contains_log (yaxis_scale ax)),
    bool_auto; reflexivity.
Qed.

(** Swapping the end points swaps their images and nothing else. *)
Lemma frame_swap (fig : Figure) (ax : Axes) (p1 p2 : f64 * f64)
    (bool_auto : bool) :
  let fr := frame fig ax p1 p2 bool_auto in
  let fr' := frame fig ax p2 p1 bool_auto in
  pt1 fr' = pt2 fr /\ pt2 fr' = pt1 fr.
Proof. cbv zeta. rewrite !frame_by_axis. split; reflexivity. Qed.

Lemma ax_size_positive (fig : Figure) (ax : Axes) :
  is_positive (dpi fig) ->
  is_positive (fst (window_extent ax)) ->
  is_positive (snd (window_extent ax)) ->
  is_positive (fst (ax_size fig ax)) /\ is_positive (snd (ax_size fig ax)).
Proof.
  intros Hd Hw Hh. unfold ax_size. cbn [fst snd].
  apply is_positive_Fin in Hd as (d & -> & Hd).
  apply is_positive_Fin in Hw as (w & -> & Hw).
  apply is_positive_Fin in Hh as (h & -> & Hh).
  rewrite !div_Fin by lra. simpl.
  assert (0 < / d)%R by now apply Rinv_0_lt_compat.
  unfold Rdiv. split; repeat apply Rmult_lt_0_compat; assumption.
Qed.

(** On a well-formed axis the forward transform is finite, its ratio is
    not zero, and the conversion back undoes it. *)
Lemma axis_valid (scale : string) (extent : f64) (lim : f64 * f64)
    (bool_auto : bool) (c1 c2 : f64) :
  is_positive extent ->
  valid_axis scale lim c1 c2 ->
  exists l0 s X1 X2 : R,
    fst (axis_lim scale lim) = Fin l0 /\
    axis_ratio extent (axis_lim scale lim) bool_auto = Fin s /\
    s <> 0%R /\
    axis_pixel scale extent lim bool_auto c1 = Fin X1 /\
    axis_pixel scale extent lim bool_auto c2 = Fin X2 /\
    back scale (Fin s) (Fin l0) (Fin X1) = c1 /\
    back scale (Fin s) (Fin l0) (Fin X2) = c2 /\
    (c1 <> c2 -> X1 <> X2).
Proof.
  intros He (Hf0 & Hf1 & Hne & Hc1 & Hc2 & Hlog).
  destruct lim as [a b]. cbn [fst snd] in *.
  apply is_positive_Fin in He as (e & -> & He).
  apply is_finite_Fin in Hf0 as (l0 & ->).
  apply is_finite_Fin in Hf1 as (l1 & ->).
  apply is_finite_Fin in Hc1 as (v1 & ->).
  apply is_finite_Fin in Hc2 as (v2 & ->).
  assert (Hl : l0 <> l1) by congruence.
  unfold axis_pixel, axis_coord, axis_lim, axis_ratio, back.
  destruct (contains_log scale).
  - destruct (Hlog eq_refl) as (P0 & P1 & Q1 & Q2). simpl in P0, P1, Q1, Q2.
    cbn [fst snd].
    rewrite (log_Fin l0), (log_Fin l1), (log_Fin v1), (log_Fin v2) by assumption.
    cbn [fst snd].
    assert (Hd : (ln l1 - ln l0)%R <> 0%R).
    { intros E. apply Hl. apply ln_inv; lra. }
    assert (Hs : (if bool_auto then Fin e / (Fin (ln l1) - Fin (ln l0)) else Fin 1)
                 = Fin (if bool_auto then e / (ln l1 - ln l0) else 1)).
    { destruct bool_auto; [| reflexivity].
      change (Fin (ln l1) - Fin (ln l0)) with (Fin (ln l1 - ln l0)).
      now apply div_Fin. }
    rewrite Hs. set (s := if bool_auto then (e / (ln l1 - ln l0))%R else 1%R).
    assert (Hs0 : s <> 0%R).
    { subst s. destruct bool_auto; [| lra].
      unfold Rdiv. apply Rmult_integral_contrapositive_currified; [lra |].
      now apply Rinv_neq_0_compat. }
    exists (ln l0), s, ((ln v1 - ln l0) * s)%R, ((ln v2 - ln l0) * s)%R.
    rewrite !div_Fin by assumption. simpl.
    repeat split; try reflexivity; try assumption.
    + rewrite <- (exp_ln v1) at 2 by assumption. do 2 f_equal. now field.
    + rewrite <- (exp_ln v2) at 2 by assumption. do 2 f_equal. now field.
    + intros Hv E. apply Hv. f_equal. apply ln_inv; try assumption.
      apply Rmult_eq_reg_r in E; [lra | assumption].
  - cbn [fst snd].
    assert (Hd : (l1 - l0)%R <> 0%R) by lra.
    assert (Hs : (if bool_auto then Fin e / (Fin l1 - Fin l0) else Fin 1)
                 = Fin (if bool_auto then e / (l1 - l0) else 1)).
    { destruct bool_auto; [| reflexivity].
      change (Fin l1 - Fin l0) with (Fin (l1 - l0)).
      now apply div_Fin. }
    rewrite Hs. set (s := if bool_auto then (e / (l1 - l0))%R else 1%R).
    assert (Hs0 : s <> 0%R).
    { subst s. destruct bool_auto; [| lra].
      unfold Rdiv. apply Rmult_integral_contrapositive_currified; [lra |].
      now apply Rinv_neq_0_compat. }
    exists l0, s, ((v1 - l0) * s)%R, ((v2 - l0) * s)%R.
    rewrite !div_Fin by assumption. simpl.
    repeat split; try reflexivity; try assumption.
    + f_equal. now field.
    + f_equal. now field.
    + intros Hv E. apply Hv. f_equal.
      apply Rmult_eq_reg_r in E; [lra | assumption].
Qed.

Lemma frame_valid (fig : Figure) (ax : Axes) (p1 p2 : f64 * f64)
    (k_r : f64) (bool_auto : bool) :
  valid_call fig ax p1 p2 k_r ->
  let fr := frame fig ax p1 p2 bool_auto in
  let bx := back (xaxis_scale ax) (xscale fr) (fst (ax_xlim fr)) in
  let by_ := back (yaxis_scale ax) (yscale fr) (fst (ax_ylim fr)) in
  exists X1 Y1 X2 Y2 k : R,
    pt1 fr = (Fin X1, Fin Y1) /\ pt2 fr = (Fin X2, Fin Y2) /\ k_r = Fin k /\
    bx (Fin X1) = fst p1 /\ by_ (Fin Y1) = snd p1 /\
    bx (Fin X2) = fst p2 /\ by_ (Fin Y2) = snd p2 /\
    (fst p1 <> fst p2 -> X1 <> X2) /\ (snd p1 <> snd p2 -> Y1 <> Y2).
Proof.
  intros (Hd & Hw & Hh & Hx & Hy & Hk) fr bx by_.
  destruct (ax_size_positive fig ax Hd Hw Hh) as [Pw Ph].
  destruct (axis_valid _ _ _ bool_auto _ _ Pw Hx)
    as (lx & sx & X1 & X2 & Hlx & Hsx & Hsx0 & HX1 & HX2 & Bx1 & Bx2 & Nx).
  destruct (axis_valid _ _ _ bool_auto _ _ Ph Hy)
    as (ly & sy & Y1 & Y2 & Hly & Hsy & Hsy0 & HY1 & HY2 & By1 & By2 & Ny).
  apply is_finite_Fin in Hk as (k & ->).
  exists X1, Y1, X2, Y2, k.
  subst fr bx by_. rewrite frame_by_axis.
  cbn [pt1 pt2 xscale yscale ax_xlim ax_ylim].
  rewrite HX1, HX2, HY1, HY2, Hsx, Hsy, Hlx, Hly.
  repeat split; assumption.
Qed.

(** The conversion back of a finite value is finite. *)
Lemma frame_valid_back (fig : Figure) (ax : Axes) (p1 p2 : f64 * f64)
    (k_r : f64) (bool_auto : bool) (v : R) :
  valid_call fig ax p1 p2 k_r ->
  let fr := frame fig ax p1 p2 bool_auto in
  is_finite (back (xaxis_scale ax) (xscale fr) (fst (ax_xlim fr)) (Fin v)) /\
  is_finite (back (yaxis_scale ax) (yscale fr) (fst (ax_ylim fr)) (Fin v)).
Proof.
  intros (Hd & Hw & Hh & Hx & Hy & Hk) fr.
  destruct (ax_size_positive fig ax Hd Hw Hh) as [Pw Ph].
  destruct (axis_valid _ _ _ bool_auto _ _ Pw Hx)
    as (lx & sx & _ & _ & Hlx & Hsx & Hsx0 & _).
  destruct (axis_valid _ _ _ bool_auto _ _ Ph Hy)
    as (ly & sy & _ & _ & Hly & Hsy & Hsy0 & _).
  subst fr. rewrite frame_by_axis.
  cbn [xscale yscale ax_xlim ax_ylim].
  rewrite Hsx, Hsy, Hlx, Hly. unfold back.
  rewrite !div_Fin by assumption.
  destruct (contains_log (xaxis_scale ax)), (contains_log (yaxis_scale ax));
    simpl; tauto.
Qed.

(** ** The label on a finite angle *)

Lemma ang_Fin (th : R) :
  np.remainder (np.degrees (Fin th)) (Fin 360) = Fin (ang_deg th).
Proof.
  unfold np.degrees, np.remainder, np.mul, ang_deg.
  destruct (Req_dec_T 360 0); [lra | reflexivity].
Qed.

Lemma ang_deg_range (th : R) : (0 <= ang_deg th < 360)%R.
Proof.
  unfold ang_deg. set (d := (th * (180 / PI))%R).
  pose proof (Zfloor_bound (d / 360)) as [Hlo Hhi]. lra.
Qed.

(** The remainder of a value whose quotient by 360 lies in a known unit
    interval. *)
Lemma ang_deg_shift (th : R) (z : Z) :
  (360 * IZR z <= th * (180 / PI) < 360 * IZR z + 360)%R ->
  ang_deg th = (th * (180 / PI) - 360 * IZR z)%R.
Proof.
  intros H. unfold ang_deg. rewrite (Zfloor_eq z); [reflexivity |]. lra.
Qed.

Lemma label_Fin (th : R) (str_text : string) (int_line_num : Z) :
  let str_temp := str_mul newline int_line_num in
  let ang := ang_deg th in
  label (Fin th) str_text int_line_num =
  if Rle_dec ang 90 then (Some (Fin ang), str_text ++ str_temp)
  else if Rlt_dec ang 270 then (Some (Fin (ang + 180)), str_temp ++ str_text)
  else (Some (Fin ang), str_text ++ str_temp).
Proof.
  intros str_temp ang. unfold label. rewrite ang_Fin. fold str_temp ang.
  pose proof (ang_deg_range th) as Hr. fold ang in Hr.
  unfold np.ge, np.gt, np.le, np.lt.
  change (np.add (Fin ang) (Fin 180)) with (Fin (ang + 180)).
  destruct (Rle_dec 0 ang); [| lra].
  destruct (Rle_dec ang 90), (Rlt_dec 90 ang), (Rlt_dec ang 270),
    (Rle_dec 270 ang), (Rle_dec ang 360); simpl; try reflexivity; lra.
Qed.

(** On a finite angle some branch assigns the rotation. *)
Lemma label_assigned (th : R) (str_text : string) (int_line_num : Z) :
  exists rotation txt,
    label (Fin th) str_text int_line_num = (Some (Fin rotation), txt).
Proof.
  rewrite label_Fin.
  destruct (Rle_dec (ang_deg th) 90); [eauto |].
  destruct (Rlt_dec (ang_deg th) 270); eauto.
Qed.

(** ** From the pixel-space arcs to the returned value *)

Ltac arcs_nonempty :=
  apply (nonempty_of_length _ 49); apply pixel_arcs_length.

(** Express the ends of the returned arcs through the conversion back of
    the ends of the pixel-space arcs. *)
Ltac ends_to_pixel :=
  unfold brace; cbn [fst snd theta summit arc1 arc2 arc3 arc4];
  unfold axis_arcs; cbn [arc1x arc1y arc2x arc2y arc3x arc3y arc4x arc4y];
  rewrite ?to_axis_last by arcs_nonempty;
  rewrite ?to_axis_first by arcs_nonempty.

(** [getAxSize] raises exactly on a figure with zero dots per inch. *)
Lemma getAxSize_returns (fig : Figure) (ax : Axes) :
  dpi fig <> Fin 0 -> getAxSize fig ax = inr (ax_size fig ax).
Proof.
  intros H. unfold getAxSize, singular.
  destruct (dpi fig) as [d | | |]; try reflexivity.
  destruct (Req_dec_T d 0) as [-> | _]; [now contradiction H | reflexivity].
Qed.

Lemma getAxSize_raises (fig : Figure) (ax : Axes) :
  dpi fig = Fin 0 -> getAxSize fig ax = inl LinAlgError.
Proof.
  intros H. unfold getAxSize, singular. rewrite H.
  destruct (Req_dec_T 0 0); [reflexivity | lra].
Qed.

Lemma positive_dpi (fig : Figure) : is_positive (dpi fig) -> dpi fig <> Fin 0.
Proof.
  intros H E. rewrite E in H. simpl in H. lra.
Qed.

Lemma valid_call_dpi (fig : Figure) (ax : Axes) (p1 p2 : f64 * f64)
    (k_r : f64) :
  valid_call fig ax p1 p2 k_r -> dpi fig <> Fin 0.
Proof. intros (Hd & _). now apply positive_dpi. Qed.

Lemma dpi_cases (fig : Figure) : dpi fig = Fin 0 \/ dpi fig <> Fin 0.
Proof.
  destruct (dpi fig) as [d | | |]; try (right; discriminate).
  destruct (Req_dec_T d 0) as [-> | H]; [now left | right].
  intros E. now injection E.
Qed.

Lemma fig0_dpi : dpi fig0 <> Fin 0.
Proof. apply positive_dpi. simpl. lra. Qed.

(** A call on a figure with zero dots per inch raises before it draws. *)
Lemma curlyBrace_raises (fig : Figure) (ax : Axes) (p1 p2 : f64 * f64)
    (k_r : f64) (bool_auto : bool) (str_text : string) (int_line_num : Z) :
  dpi fig = Fin 0 ->
  curlyBrace fig ax p1 p2 k_r bool_auto str_text int_line_num
  = ([], inl LinAlgError).
Proof.
  intros H. unfold curlyBrace. now rewrite (getAxSize_raises fig ax H).
Qed.

(** With a finite angle the call returns the value of the geometry. *)
Lemma curlyBrace_finite_angle (fig : Figure) (ax : Axes) (p1 p2 : f64 * f64)
    (k_r : f64) (bool_auto : bool) (str_text : string) (int_line_num : Z)
    (th : R) :
  let g := brace fig ax p1 p2 k_r bool_auto in
  dpi fig <> Fin 0 ->
  theta (snd g) = Fin th ->
  curlyBrace fig ax p1 p2 k_r bool_auto str_text int_line_num
  = ((fst g ++ label_draw (snd g) str_text int_line_num)%list, inr (snd g)).
Proof.
  intros g Hdpi H. unfold curlyBrace, label_draw.
  rewrite (getAxSize_returns fig ax Hdpi). fold g.
  destruct g as [plots res]. cbn [fst snd] in *. rewrite H.
  destruct (truthy str_text).
  - destruct (label_assigned th str_text int_line_num) as (rot & txt & E).
    rewrite E. reflexivity.
  - now rewrite app_nil_r.
Qed.

Lemma brace_theta (fig : Figure) (ax : Axes) (p1 p2 : f64 * f64)
    (k_r : f64) (bool_auto : bool) :
  let fr := frame fig ax p1 p2 bool_auto in
  theta (snd (brace fig ax p1 p2 k_r bool_auto)) = angle (pt1 fr) (pt2 fr).
Proof. reflexivity. Qed.

Lemma valid_theta (fig : Figure) (ax : Axes) (p1 p2 : f64 * f64)
    (k_r : f64) (bool_auto : bool) :
  valid_call fig ax p1 p2 k_r ->
  exists th, theta (snd (brace fig ax p1 p2 k_r bool_auto)) = Fin th.
Proof.
  intros Hv. rewrite brace_theta.
  destruct (frame_valid _ _ _ _ _ bool_auto Hv)
    as (X1 & Y1 & X2 & Y2 & k & -> & -> & _).
  rewrite angle_Fin. eauto.
Qed.

(** A well-formed call returns. *)
Lemma curlyBrace_returns (fig : Figure) (ax : Axes) (p1 p2 : f64 * f64)
    (k_r : f64) (bool_auto : bool) (str_text : string) (int_line_num : Z) :
  valid_call fig ax p1 p2 k_r ->
  let g := brace fig ax p1 p2 k_r bool_auto in
  curlyBrace fig ax p1 p2 k_r bool_auto str_text int_line_num
  = ((fst g ++ label_draw (snd g) str_text int_line_num)%list, inr (snd g)).
Proof.
  intros Hv g. destruct (valid_theta _ _ _ _ _ bool_auto Hv) as (th & Hth).
  apply (curlyBrace_finite_angle _ _ _ _ _ _ _ _ th); [| exact Hth].
  now apply (valid_call_dpi fig ax p1 p2 k_r).
Qed.

(** ** Well-formedness of the worked calls *)

Lemma Fin_neq (a b : R) : a <> b -> Fin a <> Fin b.
Proof. intros H E. apply H. now injection E. Qed.

Ltac valid_conjuncts :=
  repeat match goal with |- _ /\ _ => split end;
  try exact I; try lra; try (apply Fin_neq; lra);
  try (intros E; discriminate E);
  try (intros _; repeat match goal with |- _ /\ _ => split end; lra).

Lemma valid_linear (a1 b1 a2 b2 k : R) :
  valid_call fig0 ax0 (Fin a1, Fin b1) (Fin a2, Fin b2) (Fin k).
Proof.
  unfold valid_call, valid_axis; simpl. valid_conjuncts.
Qed.

Lemma valid_logx (a1 b1 a2 b2 k : R) :
  (0 < a1)%R -> (0 < a2)%R ->
  valid_call fig0 ax_logx (Fin a1, Fin b1) (Fin a2, Fin b2) (Fin k).
Proof.
  intros H1 H2. unfold valid_call, valid_axis; simpl. valid_conjuncts.
Qed.

(** ** Collapsed arcs *)

Lemma pixel_samples_length (th : R) : List.length (pixel_samples th) = 50%nat.
Proof. apply samples_length. Qed.

Lemma map_samples_constant (f : R -> f64) (c : f64) (th : R) :
  (forall a, f a = c) -> map f (pixel_samples th) = repeat c 50.
Proof.
  intros H. rewrite (map_constant f c) by (intros; apply H).
  now rewrite pixel_samples_length.
Qed.

Lemma map_rev_samples_constant (f : R -> f64) (c : f64) (th : R) :
  (forall a, f a = c) -> map f (rev (pixel_samples th)) = repeat c 50.
Proof.
  intros H. rewrite (map_constant f c) by (intros; apply H).
  now rewrite length_rev, pixel_samples_length.
Qed.

(** With a zero radius every arc is 50 copies of its centre. *)
Lemma pixel_arcs_collapsed (x1 y1 x2 y2 k : R) :
  pixel_radius x1 y1 x2 y2 k = 0%R ->
  pixel_arcs (Fin x1, Fin y1) (Fin x2, Fin y2) (Fin k) =
  {| arc1x := repeat (Fin x1) 50; arc1y := repeat (Fin y1) 50;
     arc2x := repeat (Fin ((x2 + x1) / 2)) 50;
     arc2y := repeat (Fin ((y2 + y1) / 2)) 50;
     arc3x := repeat (Fin ((x2 + x1) / 2)) 50;
     arc3y := repeat (Fin ((y2 + y1) / 2)) 50;
     arc4x := repeat (Fin x2) 50; arc4y := repeat (Fin y2) 50 |}.
Proof.
  intros Hr. rewrite pixel_arcs_Fin. cbv zeta. rewrite Hr.
  f_equal;
    first [apply map_samples_constant | apply map_rev_samples_constant];
    intros a; f_equal; field.
Qed.

Lemma to_axis_repeat (scale : string) (ratio lim0 c : f64) (n : nat) :
  to_axis scale ratio lim0 (repeat c n) = repeat (back scale ratio lim0 c) n.
Proof. rewrite to_axis_map. apply map_repeat. Qed.

Lemma pixel_radius_zero_gain (x1 y1 x2 y2 : R) :
  pixel_radius x1 y1 x2 y2 0 = 0%R.
Proof. unfold pixel_radius. ring. Qed.


(** ** The returned geometry *)

(** Rewrite a well-formed call to its finite pixel-space end points. *)
Ltac on_valid_frame Hv bool_auto :=
  let X1 := fresh "X1" in let Y1 := fresh "Y1" in
  let X2 := fresh "X2" in let Y2 := fresh "Y2" in
  let k := fresh "k" in
  let E1 := fresh "E1" in let E2 := fresh "E2" in let Ek := fresh "Ek" in
  let Bx1 := fresh "Bx1" in let By1 := fresh "By1" in
  let Bx2 := fresh "Bx2" in let By2 := fresh "By2" in
  let Nx := fresh "Nx" in let Ny := fresh "Ny" in
  destruct (frame_valid _ _ _ _ _ bool_auto Hv)
    as (X1 & Y1 & X2 & Y2 & k & E1 & E2 & Ek & Bx1 & By1 & Bx2 & By2 & Nx & Ny);
  rewrite ?E1, ?E2;
  first [ match type of Ek with ?v = _ => is_var v; subst v end
        | injection Ek as Ek; subst k ].

(** C5. For every well-formed call, the call returns, and the summit it
    returns is the last sampled point of the returned [arc2], that is the
    last point of the pixel-space [arc2] converted back to the axis
    coordinates (divided by the ratio, shifted by the lower limit and, on a
    logarithmic axis, exponentiated).  In pixel space that point is the
    middle of the chord moved by twice the gain times the chord turned by a
    quarter turn. *)
Theorem summit_is_arc2_last (fig : Figure) (ax : Axes) (p1 p2 : f64 * f64)
    (k_r : f64) (bool_auto : bool) (str_text : string) (int_line_num : Z) :
  valid_call fig ax p1 p2 k_r ->
  let fr := frame fig ax p1 p2 bool_auto in
  let pa := pixel_arcs (pt1 fr) (pt2 fr) k_r in
  let bx := back (xaxis_scale ax) (xscale fr) (fst (ax_xlim fr)) in
  let by_ := back (yaxis_scale ax) (yscale fr) (fst (ax_ylim fr)) in
  let mx := (fst (pt2 fr) + fst (pt1 fr)) / Fin 2 in
  let my := (snd (pt2 fr) + snd (pt1 fr)) / Fin 2 in
  exists ds res,
    curlyBrace fig ax p1 p2 k_r bool_auto str_text int_line_num = (ds, inr res) /\
    summit res = (at_last (fst (arc2 res)), at_last (snd (arc2 res))) /\
    summit res = (bx (at_last (arc2x pa)), by_ (at_last (arc2y pa))) /\
    at_last (arc2x pa) = mx - Fin 2 * k_r * (snd (pt2 fr) - snd (pt1 fr)) /\
    at_last (arc2y pa) = my + Fin 2 * k_r * (fst (pt2 fr) - fst (pt1 fr)).
Proof.
  intros Hv fr pa bx by_ mx my.
  eexists _, _. split; [now apply curlyBrace_returns |].
  split; [reflexivity |].
  split; [subst fr pa bx by_; ends_to_pixel; reflexivity |].
  subst mx my pa fr. on_valid_frame Hv bool_auto. cbn [fst snd].
  rewrite (proj1 (arc2_last _ _ _ _ _)), (proj2 (arc2_last _ _ _ _ _)).
  rewrite !half_sum_Fin. unfold np.sub. cbn [np.add np.neg np.mul].
  split; f_equal; ring.
Qed.

Lemma summit_is_arc2_last_witness :
  valid_call fig0 ax_logx (Fin 1, Fin 0) (Fin 10, Fin 1) (Fin (1 / 10)) /\
  exists ds res,
    curlyBrace fig0 ax_logx (Fin 1, Fin 0) (Fin 10, Fin 1) (Fin (1 / 10))
      true "Span" 1 = (ds, inr res) /\
    summit res = (at_last (fst (arc2 res)), at_last (snd (arc2 res))).
Proof.
  assert (Hv : valid_call fig0 ax_logx (Fin 1, Fin 0) (Fin 10, Fin 1)
                 (Fin (1 / 10))) by (apply valid_logx; lra).
  split; [exact Hv |].
  destruct (summit_is_arc2_last fig0 ax_logx (Fin 1, Fin 0) (Fin 10, Fin 1)
              (Fin (1 / 10)) true "Span" 1 Hv) as (ds & res & Hr & Hs & _).
  exists ds, res. split; assumption.
Defined.

(** C9. For every well-formed call, after the conversion back to the axis
    coordinates the first sampled point of [arc1] is [p1] and the last
    sampled point of [arc4] is [p2]. *)
Theorem brace_anchored_at_end_points (fig : Figure) (ax : Axes)
    (p1 p2 : f64 * f64) (k_r : f64) (bool_auto : bool) (str_text : string)
    (int_line_num : Z) :
  valid_call fig ax p1 p2 k_r ->
  exists ds res,
    curlyBrace fig ax p1 p2 k_r bool_auto str_text int_line_num = (ds, inr res) /\
    (at_0 (fst (arc1 res)), at_0 (snd (arc1 res))) = p1 /\
    (at_last (fst (arc4 res)), at_last (snd (arc4 res))) = p2.
Proof.
  intros Hv.
  eexists _, _. split; [now apply curlyBrace_returns |].
  ends_to_pixel. on_valid_frame Hv bool_auto.
  rewrite (proj1 (arc1_first _ _ _ _ _)), (proj2 (arc1_first _ _ _ _ _)).
  rewrite (proj1 (arc4_last _ _ _ _ _)), (proj2 (arc4_last _ _ _ _ _)).
  rewrite Bx1, By1, Bx2, By2. destruct p1, p2. split; reflexivity.
Qed.

Lemma brace_anchored_at_end_points_witness :
  valid_call fig0 ax_logx (Fin 1, Fin 0) (Fin 10, Fin 1) (Fin (1 / 10)) /\
  exists ds res,
    curlyBrace fig0 ax_logx (Fin 1, Fin 0) (Fin 10, Fin 1) (Fin (1 / 10))
      true "" 2 = (ds, inr res) /\
    (at_0 (fst (arc1 res)), at_0 (snd (arc1 res))) = (Fin 1, Fin 0) /\
    (at_last (fst (arc4 res)), at_last (snd (arc4 res))) = (Fin 10, Fin 1).
Proof.
  assert (Hv : valid_call fig0 ax_logx (Fin 1, Fin 0) (Fin 10, Fin 1)
                 (Fin (1 / 10))) by (apply valid_logx; lra).
  split; [exact Hv |].
  exact (brace_anchored_at_end_points fig0 ax_logx (Fin 1, Fin 0)
           (Fin 10, Fin 1) (Fin (1 / 10)) true "" 2 Hv).
Defined.

Lemma plots_of_label_draw (res : BraceResult) (str_text : string)
    (int_line_num : Z) :
  plots_of (label_draw res str_text int_line_num) = [].
Proof.
  unfold label_draw. destruct (truthy str_text); [| reflexivity].
  destruct (label (theta res) str_text int_line_num) as [[rot |] txt];
    reflexivity.
Qed.

(** C10. For every well-formed call, the last sampled point of [arc2] is
    the first sampled point of [arc3], and it is the summit; the line plots
    of the call are the four arcs and the two connecting lines, from the end
    of [arc1] to [arc2] and from the end of [arc3] to [arc4], with none
    between [arc2] and [arc3]. *)
Theorem inner_arcs_meet_at_summit (fig : Figure) (ax : Axes)
    (p1 p2 : f64 * f64) (k_r : f64) (bool_auto : bool) (str_text : string)
    (int_line_num : Z) :
  valid_call fig ax p1 p2 k_r ->
  exists ds res,
    curlyBrace fig ax p1 p2 k_r bool_auto str_text int_line_num = (ds, inr res) /\
    at_last (fst (arc2 res)) = at_0 (fst (arc3 res)) /\
    at_last (snd (arc2 res)) = at_0 (snd (arc3 res)) /\
    summit res = (at_0 (fst (arc3 res)), at_0 (snd (arc3 res))) /\
    is_finite (fst (summit res)) /\ is_finite (snd (summit res)) /\
    plots_of ds =
      [ Plot (fst (arc1 res)) (snd (arc1 res));
        Plot (fst (arc2 res)) (snd (arc2 res));
        Plot (fst (arc3 res)) (snd (arc3 res));
        Plot (fst (arc4 res)) (snd (arc4 res));
        Plot [at_last (fst (arc1 res)); at_1 (fst (arc2 res))]
             [at_last (snd (arc1 res)); at_1 (snd (arc2 res))];
        Plot [at_last (fst (arc3 res)); at_1 (fst (arc4 res))]
             [at_last (snd (arc3 res)); at_1 (snd (arc4 res))] ].
Proof.
  intros Hv.
  eexists _, _. split; [now apply curlyBrace_returns |].
  assert (Hx : at_last (fst (arc2 (snd (brace fig ax p1 p2 k_r bool_auto))))
               = at_0 (fst (arc3 (snd (brace fig ax p1 p2 k_r bool_auto))))).
  { ends_to_pixel. on_valid_frame Hv bool_auto.
    now rewrite (proj1 (arc2_last _ _ _ _ _)), (proj1 (arc3_first _ _ _ _ _)). }
  assert (Hy : at_last (snd (arc2 (snd (brace fig ax p1 p2 k_r bool_auto))))
               = at_0 (snd (arc3 (snd (brace fig ax p1 p2 k_r bool_auto))))).
  { ends_to_pixel. on_valid_frame Hv bool_auto.
    now rewrite (proj2 (arc2_last _ _ _ _ _)), (proj2 (arc3_first _ _ _ _ _)). }
  split; [exact Hx |]. split; [exact Hy |].
  split; [rewrite <- Hx, <- Hy; reflexivity |].
  split; [| split].
  - ends_to_pixel. on_valid_frame Hv bool_auto.
    rewrite (proj1 (arc2_last _ _ _ _ _)).
    now apply (frame_valid_back _ _ _ _ _ bool_auto _ Hv).
  - ends_to_pixel. on_valid_frame Hv bool_auto.
    rewrite (proj2 (arc2_last _ _ _ _ _)).
    now apply (frame_valid_back _ _ _ _ _ bool_auto _ Hv).
  - unfold plots_of. rewrite filter_app.
    fold (plots_of (label_draw (snd (brace fig ax p1 p2 k_r bool_auto))
                      str_text int_line_num)).
    rewrite plots_of_label_draw, app_nil_r. reflexivity.
Qed.

Lemma inner_arcs_meet_at_summit_witness :
  valid_call fig0 ax0 (Fin 0, Fin 0) (Fin 1, Fin 1) (Fin (1 / 10)) /\
  exists ds res,
    curlyBrace fig0 ax0 (Fin 0, Fin 0) (Fin 1, Fin 1) (Fin (1 / 10))
      false "" 2 = (ds, inr res) /\
    at_last (fst (arc2 res)) = at_0 (fst (arc3 res)) /\
    at_last (snd (arc2 res)) = at_0 (snd (arc3 res)).
Proof.
  assert (Hv : valid_call fig0 ax0 (Fin 0, Fin 0) (Fin 1, Fin 1)
                 (Fin (1 / 10))) by apply valid_linear.
  split; [exact Hv |].
  destruct (inner_arcs_meet_at_summit fig0 ax0 (Fin 0, Fin 0) (Fin 1, Fin 1)
              (Fin (1 / 10)) false "" 2 Hv) as (ds & res & Hr & Hx & Hy & _).
  exists ds, res. repeat split; assumption.
Defined.

(** ** The gaps that the connecting lines bridge *)

(** The pixel-space end points of the worked call. *)
Lemma scenario_frame :
  let fr := frame fig0 ax0 (Fin 0, Fin 0) (Fin 1, Fin 1) false in
  pt1 fr = (Fin ((0 - 0) * 1), Fin ((0 - 0) * 1)) /\
  pt2 fr = (Fin ((1 - 0) * 1), Fin ((1 - 0) * 1)).
Proof. split; reflexivity. Qed.

(** C3, refuted as stated.  In the worked call (end points (0, 0) and
    (1, 1), gain 0.1, automatic scaling off) the last point of the
    pixel-space [arc1] is (0, 0.2) and the first point of [arc2] is
    (0.3, 0.5): they are 0.3 apart on each axis. *)
Lemma arcs_meet_counterexample :
  let fr := frame fig0 ax0 (Fin 0, Fin 0) (Fin 1, Fin 1) false in
  let pa := pixel_arcs (pt1 fr) (pt2 fr) (Fin (1 / 10)) in
  (at_last (arc1x pa), at_last (arc1y pa)) = (Fin 0, Fin (2 / 10)) /\
  (at_0 (arc2x pa), at_0 (arc2y pa)) = (Fin (3 / 10), Fin (5 / 10)) /\
  ~ (at_last (arc1x pa) = at_0 (arc2x pa) /\
     at_last (arc1y pa) = at_0 (arc2y pa)).
Proof.
  intros fr pa. destruct scenario_frame as [E1 E2].
  subst pa fr. rewrite E1, E2.
  rewrite (proj1 (arc1_last _ _ _ _ _)), (proj2 (arc1_last _ _ _ _ _)).
  rewrite (proj1 (arc2_first _ _ _ _ _)), (proj2 (arc2_first _ _ _ _ _)).
  split; [| split].
  - f_equal; f_equal; lra.
  - f_equal; f_equal; lra.
  - intros [Ex _]. injection Ex. lra.
Qed.

(** C3, amended.  For every well-formed call, in pixel space the first
    point of [arc2] is the last point of [arc1] moved by (1/2 - 2 k_r)
    times the chord from [pt1] to [pt2], and the first point of [arc4] is
    the last point of [arc3] moved by the same vector; so the consecutive
    arcs meet exactly when the gain is 1/4 or the chord is reduced to a
    point. *)
Theorem arcs_gap (fig : Figure) (ax : Axes) (p1 p2 : f64 * f64)
    (k_r : f64) (bool_auto : bool) :
  valid_call fig ax p1 p2 k_r ->
  let fr := frame fig ax p1 p2 bool_auto in
  let pa := pixel_arcs (pt1 fr) (pt2 fr) k_r in
  let gx := (Fin (1 / 2) - Fin 2 * k_r) * (fst (pt2 fr) - fst (pt1 fr)) in
  let gy := (Fin (1 / 2) - Fin 2 * k_r) * (snd (pt2 fr) - snd (pt1 fr)) in
  at_0 (arc2x pa) = at_last (arc1x pa) + gx /\
  at_0 (arc2y pa) = at_last (arc1y pa) + gy /\
  at_0 (arc4x pa) = at_last (arc3x pa) + gx /\
  at_0 (arc4y pa) = at_last (arc3y pa) + gy /\
  is_finite gx /\ is_finite gy /\
  ((at_last (arc1x pa), at_last (arc1y pa)) = (at_0 (arc2x pa), at_0 (arc2y pa))
   <-> k_r = Fin (1 / 4) \/ pt1 fr = pt2 fr) /\
  ((at_last (arc3x pa), at_last (arc3y pa)) = (at_0 (arc4x pa), at_0 (arc4y pa))
   <-> k_r = Fin (1 / 4) \/ pt1 fr = pt2 fr).
Proof.
  intros Hv fr pa gx gy. subst gx gy pa fr.
  on_valid_frame Hv bool_auto. cbn [fst snd].
  rewrite (proj1 (arc1_last _ _ _ _ _)), (proj2 (arc1_last _ _ _ _ _)).
  rewrite (proj1 (arc2_first _ _ _ _ _)), (proj2 (arc2_first _ _ _ _ _)).
  rewrite (proj1 (arc3_last _ _ _ _ _)), (proj2 (arc3_last _ _ _ _ _)).
  rewrite (proj1 (arc4_first _ _ _ _ _)), (proj2 (arc4_first _ _ _ _ _)).
  simpl.
  assert (Hiff : forall a b c d : R,
            (c = a + (1 / 2 - 2 * k) * (X2 - X1))%R ->
            (d = b + (1 / 2 - 2 * k) * (Y2 - Y1))%R ->
            (Fin a, Fin b) = (Fin c, Fin d) <->
            Fin k = Fin (1 / 4) \/ (Fin X1, Fin Y1) = (Fin X2, Fin Y2)).
  { intros a b c d Hc Hd. split.
    - intros E. injection E as Ea Eb.
      destruct (Req_dec_T k (1 / 4)) as [K | K]; [left; now f_equal |].
      right. f_equal; f_equal; nra.
    - intros [E | E].
      + injection E as ->. f_equal; f_equal; lra.
      + injection E as -> ->. f_equal; f_equal; lra. }
  repeat split; try (f_equal; lra); apply Hiff; lra.
Qed.

Lemma arcs_gap_witness :
  valid_call fig0 ax0 (Fin 0, Fin 0) (Fin 1, Fin 1) (Fin (1 / 10)) /\
  let fr := frame fig0 ax0 (Fin 0, Fin 0) (Fin 1, Fin 1) false in
  let pa := pixel_arcs (pt1 fr) (pt2 fr) (Fin (1 / 10)) in
  at_0 (arc2x pa)
  = at_last (arc1x pa)
    + (Fin (1 / 2) - Fin 2 * Fin (1 / 10)) * (fst (pt2 fr) - fst (pt1 fr)).
Proof.
  assert (Hv : valid_call fig0 ax0 (Fin 0, Fin 0) (Fin 1, Fin 1)
                 (Fin (1 / 10))) by apply valid_linear.
  split; [exact Hv |].
  exact (proj1 (arcs_gap fig0 ax0 (Fin 0, Fin 0) (Fin 1, Fin 1)
                  (Fin (1 / 10)) false Hv)).
Defined.

(** ** Degenerate braces *)

(** C7. For every well-formed call with gain 0 (whether or not the end
    points differ), the radius is 0, each pixel-space arc is 50 copies of
    one point ([pt1] for [arc1], the middle of [pt1] and [pt2] for [arc2]
    and [arc3], [pt2] for [arc4]), the returned arcs are 50 copies of [p1],
    of the converted middle and of [p2], and the summit is the middle of
    the pixel-space end points converted back to the axis coordinates. *)
Theorem zero_gain_collapses (fig : Figure) (ax : Axes) (p1 p2 : f64 * f64)
    (bool_auto : bool) (str_text : string) (int_line_num : Z) :
  valid_call fig ax p1 p2 (Fin 0) ->
  let fr := frame fig ax p1 p2 bool_auto in
  let mx := (fst (pt2 fr) + fst (pt1 fr)) / Fin 2 in
  let my := (snd (pt2 fr) + snd (pt1 fr)) / Fin 2 in
  let bx := back (xaxis_scale ax) (xscale fr) (fst (ax_xlim fr)) in
  let by_ := back (yaxis_scale ax) (yscale fr) (fst (ax_ylim fr)) in
  exists ds res,
    curlyBrace fig ax p1 p2 (Fin 0) bool_auto str_text int_line_num
    = (ds, inr res) /\
    radius (pt1 fr) (pt2 fr) (Fin 0) = Fin 0 /\
    pixel_arcs (pt1 fr) (pt2 fr) (Fin 0) =
      {| arc1x := repeat (fst (pt1 fr)) 50; arc1y := repeat (snd (pt1 fr)) 50;
         arc2x := repeat mx 50; arc2y := repeat my 50;
         arc3x := repeat mx 50; arc3y := repeat my 50;
         arc4x := repeat (fst (pt2 fr)) 50; arc4y := repeat (snd (pt2 fr)) 50 |} /\
    arc1 res = (repeat (fst p1) 50, repeat (snd p1) 50) /\
    arc2 res = (repeat (bx mx) 50, repeat (by_ my) 50) /\
    arc3 res = (repeat (bx mx) 50, repeat (by_ my) 50) /\
    arc4 res = (repeat (fst p2) 50, repeat (snd p2) 50) /\
    summit res = (bx mx, by_ my).
Proof.
  intros Hv fr mx my bx by_.
  eexists _, _. split; [now apply curlyBrace_returns |].
  assert (Hpa : pixel_arcs (pt1 fr) (pt2 fr) (Fin 0) =
      {| arc1x := repeat (fst (pt1 fr)) 50; arc1y := repeat (snd (pt1 fr)) 50;
         arc2x := repeat mx 50; arc2y := repeat my 50;
         arc3x := repeat mx 50; arc3y := repeat my 50;
         arc4x := repeat (fst (pt2 fr)) 50; arc4y := repeat (snd (pt2 fr)) 50 |}).
  { subst mx my fr. on_valid_frame Hv bool_auto. cbn [fst snd].
    rewrite !half_sum_Fin.
    apply pixel_arcs_collapsed, pixel_radius_zero_gain. }
  split; [| split; [exact Hpa |]].
  { subst fr. on_valid_frame Hv bool_auto.
    rewrite radius_Fin. f_equal. apply pixel_radius_zero_gain. }
  unfold brace. cbn [fst snd arc1 arc2 arc3 arc4 summit]. fold fr.
  rewrite Hpa. unfold axis_arcs.
  cbn [arc1x arc1y arc2x arc2y arc3x arc3y arc4x arc4y].
  rewrite !to_axis_repeat. fold bx by_.
  subst bx by_ fr.
  destruct (frame_valid _ _ _ _ _ bool_auto Hv)
    as (X1 & Y1 & X2 & Y2 & k & E1 & E2 & _ & Bx1 & By1 & Bx2 & By2 & _).
  rewrite E1, E2. cbn [fst snd].
  rewrite Bx1, By1, Bx2, By2.
  repeat split; reflexivity.
Qed.

Lemma zero_gain_collapses_witness :
  valid_call fig0 ax0 (Fin 0, Fin 0) (Fin 1, Fin 1) (Fin 0) /\
  exists ds res,
    curlyBrace fig0 ax0 (Fin 0, Fin 0) (Fin 1, Fin 1) (Fin 0) true "" 2
    = (ds, inr res) /\
    arc1 res = (repeat (Fin 0) 50, repeat (Fin 0) 50) /\
    arc4 res = (repeat (Fin 1) 50, repeat (Fin 1) 50).
Proof.
  assert (Hv : valid_call fig0 ax0 (Fin 0, Fin 0) (Fin 1, Fin 1) (Fin 0))
    by apply valid_linear.
  split; [exact Hv |].
  destruct (zero_gain_collapses fig0 ax0 (Fin 0, Fin 0) (Fin 1, Fin 1)
              true "" 2 Hv)
    as (ds & res & Hr & _ & _ & H1 & _ & _ & H4 & _).
  exists ds, res. repeat split; assumption.
Defined.



(** ** The angle without automatic scaling *)






(** ** The label as a function of the signed angle in degrees *)

Lemma signed_deg_range (th : R) :
  (- PI < th <= PI)%R -> (- 180 < signed_deg th <= 180)%R.
Proof.
  intros [Hlo Hhi]. unfold signed_deg.
  pose proof PI_RGT_0 as Hpi.
  assert (Hc : (0 < 180 / PI)%R) by (apply Rdiv_lt_0_compat; lra).
  assert (Hcp : (180 / PI * PI = 180)%R) by (field; lra).
  set (c := (180 / PI)%R) in *. nra.
Qed.

Lemma signed_deg_add_half_turn (th : R) :
  signed_deg (th + PI) = (signed_deg th + 180)%R.
Proof. unfold signed_deg. field. apply PI_neq0. Qed.

Lemma signed_deg_sub_half_turn (th : R) :
  signed_deg (th - PI) = (signed_deg th - 180)%R.
Proof. unfold signed_deg. field. apply PI_neq0. Qed.

Lemma signed_deg_quarter : signed_deg (PI / 2) = 90%R.
Proof. unfold signed_deg. field. apply PI_neq0. Qed.

Lemma signed_deg_inj (a b : R) : signed_deg a = signed_deg b -> a = b.
Proof.
  unfold signed_deg. intros H.
  apply Rmult_eq_reg_r in H; [exact H |].
  pose proof PI_RGT_0.
  assert (0 < 180 / PI)%R by (apply Rdiv_lt_0_compat; lra). lra.
Qed.

Lemma label_of_degrees (th : R) (str_text : string) (int_line_num : Z) :
  let str_temp := str_mul newline int_line_num in
  let d := signed_deg th in
  (- 180 < d <= 180)%R ->
  label (Fin th) str_text int_line_num =
  if Rlt_dec d (- 90) then (Some (Fin (d + 540)), str_temp ++ str_text)
  else if Rlt_dec d 0 then (Some (Fin (d + 360)), str_text ++ str_temp)
  else if Rle_dec d 90 then (Some (Fin d), str_text ++ str_temp)
  else (Some (Fin (d + 180)), str_temp ++ str_text).
Proof.
  intros str_temp d Hd. rewrite label_Fin. fold str_temp.
  destruct (Rlt_dec d 0) as [Hneg | Hpos].
  - assert (Ha : ang_deg th = (d + 360)%R).
    { rewrite (ang_deg_shift th (-1)); fold (signed_deg th); fold d; lra. }
    rewrite Ha.
    destruct (Rlt_dec d (- 90)), (Rle_dec (d + 360) 90), (Rlt_dec (d + 360) 270);
      try lra; try reflexivity.
    do 3 f_equal. lra.
  - assert (Ha : ang_deg th = d).
    { rewrite (ang_deg_shift th 0); fold (signed_deg th); fold d; lra. }
    rewrite Ha.
    destruct (Rlt_dec d (- 90)), (Rle_dec d 90), (Rlt_dec d 270);
      try lra; reflexivity.
Qed.

Lemma signed_deg_not_quarter (y x : R) :
  x <> 0%R ->
  signed_deg (np.atan2 y x) <> 90%R /\ signed_deg (np.atan2 y x) <> (- 90)%R.
Proof.
  intros Hx. destruct (atan2_not_vertical y x Hx) as [Hp Hm]. split.
  - intros E. apply Hp. apply signed_deg_inj. now rewrite signed_deg_quarter.
  - intros E. apply Hm. apply signed_deg_inj. rewrite E.
    unfold signed_deg. field. apply PI_neq0.
Qed.

(** ** The label drawn by a call *)

Lemma drawn_label_last (ds : list draw) (x y rotation : f64) (s : string) :
  drawn_label (ds ++ [Text x y s rotation])%list = Some (rotation, s).
Proof. unfold drawn_label. now rewrite last_last. Qed.

Lemma curlyBrace_label (fig : Figure) (ax : Axes) (p1 p2 : f64 * f64)
    (k_r : f64) (bool_auto : bool) (str_text : string) (int_line_num : Z)
    (th : R) (rotation : f64) (txt : string) :
  let g := brace fig ax p1 p2 k_r bool_auto in
  dpi fig <> Fin 0 ->
  theta (snd g) = Fin th ->
  truthy str_text = true ->
  label (Fin th) str_text int_line_num = (Some rotation, txt) ->
  exists ds,
    curlyBrace fig ax p1 p2 k_r bool_auto str_text int_line_num
    = (ds, inr (snd g)) /\
    drawn_label ds = Some (rotation, txt).
Proof.
  intros g Hdpi Hth Ht Hl.
  rewrite (curlyBrace_finite_angle _ _ _ _ _ _ _ _ th Hdpi Hth). fold g.
  eexists. split; [reflexivity |].
  unfold label_draw. rewrite Ht, Hth, Hl. apply drawn_label_last.
Qed.

(** A finite normalized angle comes from a finite angle. *)
Lemma remainder_finite (a : f64) (ang : R) :
  np.remainder (np.degrees a) (Fin 360) = Fin ang ->
  exists th, a = Fin th /\ ang = ang_deg th.
Proof.
  destruct a as [th | | |]; intros H.
  - exists th. split; [reflexivity |]. rewrite ang_Fin in H. now injection H.
  - exfalso. unfold np.degrees, np.mul, np.inf_of_sign in H.
    destruct (Req_dec_T (180 / PI) 0); [discriminate H |].
    destruct (Rlt_dec 0 (180 / PI)); discriminate H.
  - exfalso. unfold np.degrees, np.mul, np.inf_of_sign in H.
    destruct (Req_dec_T (- (180 / PI)) 0); [discriminate H |].
    destruct (Rlt_dec 0 (- (180 / PI))); discriminate H.
  - discriminate H.
Qed.

(** The placement rule, for any call that labels the brace. *)
Lemma label_rule (fig : Figure) (ax : Axes) (p1 p2 : f64 * f64)
    (k_r : f64) (bool_auto : bool) (str_text : string) (int_line_num : Z)
    (ang : R) :
  let g := brace fig ax p1 p2 k_r bool_auto in
  let str_temp := str_mul newline int_line_num in
  is_positive (dpi fig) ->
  truthy str_text = true ->
  np.remainder (np.degrees (theta (snd g))) (Fin 360) = Fin ang ->
  exists ds rotation txt,
    curlyBrace fig ax p1 p2 k_r bool_auto str_text int_line_num
    = (ds, inr (snd g)) /\
    drawn_label ds = Some (rotation, txt) /\
    ((0 <= ang <= 90)%R ->
     rotation = Fin ang /\ txt = str_text ++ str_temp) /\
    ((90 < ang < 270)%R ->
     rotation = Fin (ang + 180) /\ txt = str_temp ++ str_text) /\
    ((270 <= ang < 360)%R ->
     rotation = Fin ang /\ txt = str_text ++ str_temp) /\
    (0 <= ang < 360)%R.
Proof.
  intros g str_temp Hpos Ht Hang. pose proof (positive_dpi fig Hpos) as Hdpi.
  destruct (remainder_finite _ _ Hang) as (th & Hth & ->).
  pose proof (label_Fin th str_text int_line_num) as Hl. cbv zeta in Hl.
  fold str_temp in Hl.
  pose proof (ang_deg_range th) as Hr.
  destruct (Rle_dec (ang_deg th) 90) as [H90 | H90];
    [| destruct (Rlt_dec (ang_deg th) 270) as [H270 | H270]];
    destruct (curlyBrace_label fig ax p1 p2 k_r bool_auto _ _ th _ _ Hdpi Hth Ht Hl)
      as (ds & Hc & Hdl);
    exists ds; eexists _, _;
    (split; [exact Hc |]); (split; [exact Hdl |]);
    repeat split; intros; try reflexivity; lra.
Qed.

(** ** The worked call with a label *)

(** On the linear axes of the worked call, with automatic scaling off, the
    angle is that of the difference of the end points. *)
Lemma scenario_angle (a1 b1 a2 b2 k : R) :
  theta (snd (brace fig0 ax0 (Fin a1, Fin b1) (Fin a2, Fin b2) (Fin k) false))
  = Fin (np.atan2 (b2 - b1) (a2 - a1)).
Proof.
  rewrite brace_theta, frame_by_axis. cbn [pt1 pt2].
  unfold axis_pixel, axis_coord, axis_lim, axis_ratio.
  cbn [ax0 xaxis_scale yaxis_scale get_xlim get_ylim fst snd].
  change (contains_log "linear") with false.
  cbn [fst snd]. unfold np.sub. cbn [np.add np.neg np.mul].
  rewrite angle_Fin. unfold pixel_angle. f_equal. f_equal; ring.
Qed.

Lemma atan2_diagonal : np.atan2 (1 - 0) (1 - 0) = (PI / 4)%R.
Proof.
  unfold np.atan2. destruct (Rlt_dec 0 (1 - 0)); [| lra].
  rewrite <- atan_1. f_equal. field.
Qed.

Lemma atan2_antidiagonal : np.atan2 (0 - 1) (0 - 1) = (PI / 4 - PI)%R.
Proof.
  unfold np.atan2.
  destruct (Rlt_dec 0 (0 - 1)); [lra |].
  destruct (Rlt_dec (0 - 1) 0); [| lra].
  destruct (Rle_dec 0 (0 - 1)); [lra |].
  rewrite <- atan_1. do 2 f_equal. field.
Qed.

Lemma signed_deg_eighth : signed_deg (PI / 4) = 45%R.
Proof. unfold signed_deg. field. apply PI_neq0. Qed.

Lemma newline_mul_1 : str_mul newline 1 = newline.
Proof. reflexivity. Qed.

(** The label of the worked call: ["Span"] followed by one line break,
    rotated by 45 degrees. *)
Lemma scenario_label :
  exists ds res,
    curlyBrace fig0 ax0 (Fin 0, Fin 0) (Fin 1, Fin 1) (Fin (1 / 10)) false
      "Span" 1 = (ds, inr res) /\
    theta res = Fin (PI / 4) /\
    drawn_label ds = Some (Fin 45, "Span" ++ newline).
Proof.
  pose proof (scenario_angle 0 0 1 1 (1 / 10)) as Hth.
  rewrite atan2_diagonal in Hth.
  assert (Hl : label (Fin (PI / 4)) "Span" 1 = (Some (Fin 45), "Span" ++ newline)).
  { rewrite label_of_degrees; rewrite signed_deg_eighth; [| lra].
    destruct (Rlt_dec 45 (- 90)); [lra |].
    destruct (Rlt_dec 45 0); [lra |].
    destruct (Rle_dec 45 90); [reflexivity | lra]. }
  destruct (curlyBrace_label _ _ _ _ _ _ "Span" 1 _ _ _ fig0_dpi Hth eq_refl Hl)
    as (ds & Hc & Hd).
  exists ds. eexists. split; [exact Hc |]. split; [exact Hth | exact Hd].
Qed.

(** The label of the worked call with its end points swapped: one line
    break followed by ["Span"], rotated by 405 degrees. *)
Lemma scenario_label_swapped :
  exists ds res,
    curlyBrace fig0 ax0 (Fin 1, Fin 1) (Fin 0, Fin 0) (Fin (1 / 10)) false
      "Span" 1 = (ds, inr res) /\
    theta res = Fin (PI / 4 - PI) /\
    drawn_label ds = Some (Fin 405, newline ++ "Span").
Proof.
  pose proof (scenario_angle 1 1 0 0 (1 / 10)) as Hth.
  rewrite atan2_antidiagonal in Hth.
  assert (Hl : label (Fin (PI / 4 - PI)) "Span" 1
               = (Some (Fin 405), newline ++ "Span")).
  { rewrite label_of_degrees;
      rewrite signed_deg_sub_half_turn, signed_deg_eighth; [| lra].
    destruct (Rlt_dec (45 - 180) (- 90)); [| lra].
    rewrite newline_mul_1. do 3 f_equal. lra. }
  destruct (curlyBrace_label _ _ _ _ _ _ "Span" 1 _ _ _ fig0_dpi Hth eq_refl Hl)
    as (ds & Hc & Hd).
  exists ds. eexists. split; [exact Hc |]. split; [exact Hth | exact Hd].
Qed.

(** C6. When the label text is not empty and [ang] is the angle in degrees
    brought within 0 to 360 (on a figure with positive dots per inch, so
    that the call gets past [getAxSize] and computes its angle): for [ang]
    in [0, 90] the text is drawn with rotation [ang] and the line breaks
    after it; for [ang] in (90, 270) with rotation [ang + 180] and the line
    breaks before it; for [ang] in [270, 360) with rotation [ang] and the
    line breaks after it.  In the worked call with label ["Span"] and one
    line break, the text drawn is ["Span"] followed by a line break, with
    rotation 45. *)
Theorem label_placement :
  (forall (fig : Figure) (ax : Axes) (p1 p2 : f64 * f64) (k_r : f64)
          (bool_auto : bool) (str_text : string) (int_line_num : Z) (ang : R),
     let g := brace fig ax p1 p2 k_r bool_auto in
     let str_temp := str_mul newline int_line_num in
     is_positive (dpi fig) ->
     truthy str_text = true ->
     np.remainder (np.degrees (theta (snd g))) (Fin 360) = Fin ang ->
     exists ds rotation txt,
       curlyBrace fig ax p1 p2 k_r bool_auto str_text int_line_num
       = (ds, inr (snd g)) /\
       drawn_label ds = Some (rotation, txt) /\
       ((0 <= ang <= 90)%R ->
        rotation = Fin ang /\ txt = str_text ++ str_temp) /\
       ((90 < ang < 270)%R ->
        rotation = Fin (ang + 180) /\ txt = str_temp ++ str_text) /\
       ((270 <= ang < 360)%R ->
        rotation = Fin ang /\ txt = str_text ++ str_temp) /\
       (0 <= ang < 360)%R) /\
  (exists ds res,
     curlyBrace fig0 ax0 (Fin 0, Fin 0) (Fin 1, Fin 1) (Fin (1 / 10)) false
       "Span" 1 = (ds, inr res) /\
     drawn_label ds = Some (Fin 45, "Span" ++ newline)).
Proof.
  split.
  - exact label_rule.
  - destruct scenario_label as (ds & res & Hc & _ & Hd). now exists ds, res.
Qed.

Lemma ang_deg_eighth : ang_deg (PI / 4) = 45%R.
Proof.
  rewrite (ang_deg_shift _ 0); fold (signed_deg (PI / 4));
    rewrite signed_deg_eighth; lra.
Qed.

Lemma label_placement_witness :
  is_positive (dpi fig0) /\
  truthy "Span" = true /\
  np.remainder
    (np.degrees
       (theta (snd (brace fig0 ax0 (Fin 0, Fin 0) (Fin 1, Fin 1)
                      (Fin (1 / 10)) false))))
    (Fin 360) = Fin 45 /\
  exists ds rotation txt,
    curlyBrace fig0 ax0 (Fin 0, Fin 0) (Fin 1, Fin 1) (Fin (1 / 10)) false
      "Span" 1
    = (ds, inr (snd (brace fig0 ax0 (Fin 0, Fin 0) (Fin 1, Fin 1)
                       (Fin (1 / 10)) false))) /\
    drawn_label ds = Some (rotation, txt) /\
    rotation = Fin 45 /\ txt = "Span" ++ newline.
Proof.
  assert (Hang : np.remainder
            (np.degrees
               (theta (snd (brace fig0 ax0 (Fin 0, Fin 0) (Fin 1, Fin 1)
                              (Fin (1 / 10)) false))))
            (Fin 360) = Fin 45).
  { rewrite scenario_angle, atan2_diagonal, ang_Fin. f_equal.
    apply ang_deg_eighth. }
  assert (Hpos : is_positive (dpi fig0)) by (simpl; lra).
  split; [exact Hpos |]. split; [reflexivity |]. split; [exact Hang |].
  destruct (proj1 label_placement fig0 ax0 (Fin 0, Fin 0) (Fin 1, Fin 1)
              (Fin (1 / 10)) false "Span" 1%Z 45%R Hpos eq_refl Hang)
    as (ds & rotation & txt & Hc & Hd & Hlo & _).
  exists ds, rotation, txt. split; [exact Hc |]. split; [exact Hd |].
  apply Hlo. lra.
Defined.

(** ** Swapping the end points *)

(** C1, refuted as stated.  In the worked call the label is drawn with
    rotation 45 and a trailing line break; with the end points swapped it
    is drawn with rotation 405 and a leading line break.  The padding
    changes side, but the two rotations differ by 360 degrees, which is
    not 180 modulo 360. *)
Lemma swap_rotation_counterexample :
  exists ds res ds' res',
    curlyBrace fig0 ax0 (Fin 0, Fin 0) (Fin 1, Fin 1) (Fin (1 / 10)) false
      "Span" 1 = (ds, inr res) /\
    curlyBrace fig0 ax0 (Fin 1, Fin 1) (Fin 0, Fin 0) (Fin (1 / 10)) false
      "Span" 1 = (ds', inr res') /\
    drawn_label ds = Some (Fin 45, "Span" ++ newline) /\
    drawn_label ds' = Some (Fin 405, newline ++ "Span") /\
    ~ (exists z : Z, (405 - 45 = 180 + 360 * IZR z)%R).
Proof.
  destruct scenario_label as (ds & res & Hc & _ & Hd).
  destruct scenario_label_swapped as (ds' & res' & Hc' & _ & Hd').
  exists ds, res, ds', res'. repeat split; try assumption.
  intros [z Hz].
  assert (H : IZR (2 * z) = IZR 1) by (rewrite mult_IZR; lra).
  apply eq_IZR in H. lia.
Qed.

(** C1, amended.  On a figure with positive dots per inch and with a
    non-empty label, let [ang] and [ang'] be the normalized angles (the
    angle in degrees brought within 0 to 360) that the call and the call
    with the end points swapped compute.  If they are exactly 180 apart
    and [ang] is neither 90 nor 270, then both calls return, the line-break
    padding is after the text in one and before it in the other, the
    rotation of the call that puts the padding after is its normalized
    angle and the rotation of the other is its normalized angle plus 180;
    so the two rotations are equal or 360 apart, that is equal modulo
    360. *)
Theorem swap_flips_padding (fig : Figure) (ax : Axes) (p1 p2 : f64 * f64)
    (k_r : f64) (bool_auto : bool) (str_text : string) (int_line_num : Z)
    (ang ang' : R) :
  is_positive (dpi fig) ->
  truthy str_text = true ->
  np.remainder
    (np.degrees (theta (snd (brace fig ax p1 p2 k_r bool_auto)))) (Fin 360)
  = Fin ang ->
  np.remainder
    (np.degrees (theta (snd (brace fig ax p2 p1 k_r bool_auto)))) (Fin 360)
  = Fin ang' ->
  (ang' = ang + 180 \/ ang' = ang - 180)%R ->
  ang <> 90%R -> ang <> 270%R ->
  let str_temp := str_mul newline int_line_num in
  exists ds res ds' res' (rot rot' : f64) (txt txt' : string),
    curlyBrace fig ax p1 p2 k_r bool_auto str_text int_line_num = (ds, inr res) /\
    curlyBrace fig ax p2 p1 k_r bool_auto str_text int_line_num = (ds', inr res') /\
    drawn_label ds = Some (rot, txt) /\
    drawn_label ds' = Some (rot', txt') /\
    ((txt = str_text ++ str_temp /\ txt' = str_temp ++ str_text /\
      rot = Fin ang /\ rot' = Fin ang' + Fin 180) \/
     (txt = str_temp ++ str_text /\ txt' = str_text ++ str_temp /\
      rot = Fin ang + Fin 180 /\ rot' = Fin ang')) /\
    exists r r' : R,
      rot = Fin r /\ rot' = Fin r' /\
      (r' = r \/ r' = r + 360 \/ r' = r - 360)%R.
Proof.
  intros Hpos Ht Hang Hang' Hrel H90 H270 str_temp.
  pose proof (positive_dpi fig Hpos) as Hdpi.
  destruct (remainder_finite _ _ Hang) as (th & Hth & ->).
  destruct (remainder_finite _ _ Hang') as (th' & Hth' & ->).
  pose proof (label_Fin th str_text int_line_num) as Hl.
  pose proof (label_Fin th' str_text int_line_num) as Hl'.
  cbv zeta in Hl, Hl'. fold str_temp in Hl, Hl'.
  pose proof (ang_deg_range th) as Hr.
  pose proof (ang_deg_range th') as Hr'.
  set (a := ang_deg th) in *. set (a' := ang_deg th') in *.
  apply Rdichotomy in H90, H270.
  destruct (Rle_dec a 90), (Rlt_dec a 270), (Rle_dec a' 90), (Rlt_dec a' 270);
    try (exfalso; lra);
    destruct (curlyBrace_label _ _ _ _ _ _ _ _ _ _ _ Hdpi Hth Ht Hl)
      as (ds & Hc & Hd);
    destruct (curlyBrace_label _ _ _ _ _ _ _ _ _ _ _ Hdpi Hth' Ht Hl')
      as (ds' & Hc' & Hd');
    exists ds; eexists; exists ds'; eexists; eexists _, _, _, _;
    (split; [exact Hc |]); (split; [exact Hc' |]);
    (split; [exact Hd |]); (split; [exact Hd' |]);
    (split;
     [ first [ left; repeat split; reflexivity
             | right; repeat split; reflexivity ]
     | eexists _, _; split; [reflexivity |]; split; [reflexivity |]; lra ]).
Qed.

Lemma ang_deg_three_eighths_back : ang_deg (PI / 4 - PI) = 225%R.
Proof.
  rewrite (ang_deg_shift _ (-1)); fold (signed_deg (PI / 4 - PI));
    rewrite signed_deg_sub_half_turn, signed_deg_eighth; lra.
Qed.

Lemma swap_flips_padding_witness :
  is_positive (dpi fig0) /\
  truthy "Span" = true /\
  (225 = 45 + 180 \/ 225 = 45 - 180)%R /\
  45%R <> 90%R /\ 45%R <> 270%R /\
  exists ds res ds' res' (rot rot' : f64) (txt txt' : string),
    curlyBrace fig0 ax0 (Fin 0, Fin 0) (Fin 1, Fin 1) (Fin (1 / 10)) false
      "Span" 2 = (ds, inr res) /\
    curlyBrace fig0 ax0 (Fin 1, Fin 1) (Fin 0, Fin 0) (Fin (1 / 10)) false
      "Span" 2 = (ds', inr res') /\
    drawn_label ds = Some (rot, txt) /\
    drawn_label ds' = Some (rot', txt') /\
    ((txt = "Span" ++ str_mul newline 2 /\ txt' = str_mul newline 2 ++ "Span" /\
      rot = Fin 45 /\ rot' = Fin 225 + Fin 180) \/
     (txt = str_mul newline 2 ++ "Span" /\ txt' = "Span" ++ str_mul newline 2 /\
      rot = Fin 45 + Fin 180 /\ rot' = Fin 225)).
Proof.
  assert (Hpos : is_positive (dpi fig0)) by (simpl; lra).
  assert (Hang : np.remainder
            (np.degrees
               (theta (snd (brace fig0 ax0 (Fin 0, Fin 0) (Fin 1, Fin 1)
                              (Fin (1 / 10)) false))))
            (Fin 360) = Fin 45).
  { rewrite scenario_angle, atan2_diagonal, ang_Fin. f_equal.
    apply ang_deg_eighth. }
  assert (Hang' : np.remainder
            (np.degrees
               (theta (snd (brace fig0 ax0 (Fin 1, Fin 1) (Fin 0, Fin 0)
                              (Fin (1 / 10)) false))))
            (Fin 360) = Fin 225).
  { rewrite scenario_angle, atan2_antidiagonal, ang_Fin. f_equal.
    apply ang_deg_three_eighths_back. }
  assert (Hrel : (225 = 45 + 180 \/ 225 = 45 - 180)%R) by (left; lra).
  assert (H90 : 45%R <> 90%R) by lra.
  assert (H270 : 45%R <> 270%R) by lra.
  split; [exact Hpos |]. split; [reflexivity |]. split; [exact Hrel |].
  split; [exact H90 |]. split; [exact H270 |].
  destruct (swap_flips_padding fig0 ax0 (Fin 0, Fin 0) (Fin 1, Fin 1)
              (Fin (1 / 10)) false "Span" 2 45 225 Hpos eq_refl Hang Hang'
              Hrel H90 H270)
    as (ds & res & ds' & res' & rot & rot' & txt & txt' & Hc & Hc' & Hd & Hd'
        & Hflip & _).
  exists ds, res, ds', res', rot, rot', txt, txt'.
  repeat split; assumption.
Defined.

(** The normalized angle of a direction, from its measure in degrees. *)
Lemma ang_deg_of_signed (th : R) :
  (- 180 < signed_deg th <= 180)%R ->
  ang_deg th
  = if Rlt_dec (signed_deg th) 0 then (signed_deg th + 360)%R
    else signed_deg th.
Proof.
  intros Hd. destruct (Rlt_dec (signed_deg th) 0) as [Hneg | Hpos].
  - rewrite (ang_deg_shift th (- 1)); unfold signed_deg in *; lra.
  - rewrite (ang_deg_shift th 0); unfold signed_deg in *; lra.
Qed.

(** In the arithmetic of the real numbers, the condition on the two
    normalized angles is met by every well-formed call whose end points
    have different abscissas: the angles of the call and of the swapped
    call are a half turn apart, and neither is a quarter turn. *)
Lemma normalized_angles_of_swap (fig : Figure) (ax : Axes)
    (p1 p2 : f64 * f64) (k_r : f64) (bool_auto : bool) :
  valid_call fig ax p1 p2 k_r ->
  fst p1 <> fst p2 ->
  exists ang ang' : R,
    np.remainder
      (np.degrees (theta (snd (brace fig ax p1 p2 k_r bool_auto)))) (Fin 360)
    = Fin ang /\
    np.remainder
      (np.degrees (theta (snd (brace fig ax p2 p1 k_r bool_auto)))) (Fin 360)
    = Fin ang' /\
    (ang' = ang + 180 \/ ang' = ang - 180)%R /\
    ang <> 90%R /\ ang <> 270%R.
Proof.
  intros Hv Hne.
  destruct (frame_valid _ _ _ _ _ bool_auto Hv)
    as (X1 & Y1 & X2 & Y2 & k & E1 & E2 & _ & _ & _ & _ & _ & Nx & _).
  destruct (frame_swap fig ax p1 p2 bool_auto) as [S1 S2].
  assert (Hth : theta (snd (brace fig ax p1 p2 k_r bool_auto))
                = Fin (np.atan2 (Y2 - Y1) (X2 - X1))).
  { rewrite brace_theta, E1, E2. apply angle_Fin. }
  assert (Hth' : theta (snd (brace fig ax p2 p1 k_r bool_auto))
                 = Fin (np.atan2 (- (Y2 - Y1)) (- (X2 - X1)))).
  { rewrite brace_theta, S1, S2, E1, E2, angle_Fin. unfold pixel_angle.
    f_equal. f_equal; ring. }
  assert (Hx : (X2 - X1)%R <> 0%R) by (specialize (Nx Hne); lra).
  rewrite Hth, Hth', !ang_Fin.
  set (y := (Y2 - Y1)%R) in *. set (x := (X2 - X1)%R) in *.
  pose proof (signed_deg_range _ (atan2_bounds y x)) as Hd.
  pose proof (signed_deg_range _ (atan2_bounds (- y) (- x))) as Hd'.
  destruct (signed_deg_not_quarter y x Hx) as [Hq Hq'].
  assert (Hrev : signed_deg (np.atan2 (- y) (- x))
                 = (signed_deg (np.atan2 y x) + 180)%R \/
                 signed_deg (np.atan2 (- y) (- x))
                 = (signed_deg (np.atan2 y x) - 180)%R).
  { destruct (atan2_reverse y x (or_introl Hx)) as [E | E]; rewrite E.
    - left. apply signed_deg_add_half_turn.
    - right. apply signed_deg_sub_half_turn. }
  eexists _, _. split; [reflexivity |]. split; [reflexivity |].
  rewrite !ang_deg_of_signed by assumption.
  set (d := signed_deg (np.atan2 y x)) in *.
  set (d' := signed_deg (np.atan2 (- y) (- x))) in *.
  apply Rdichotomy in Hq, Hq'.
  destruct (Rlt_dec d 0), (Rlt_dec d' 0); lra.
Qed.

(** On a vertical chord the angle is a quarter turn up or down, and the
    line breaks follow the text in both directions. *)
Lemma label_vertical (y : R) (str_text : string) (int_line_num : Z) :
  y <> 0%R ->
  label (Fin (np.atan2 y 0)) str_text int_line_num
  = (Some (Fin (if Rlt_dec 0 y then 90 else 270)),
     str_text ++ str_mul newline int_line_num).
Proof.
  intros Hy. unfold np.atan2.
  destruct (Rlt_dec 0 0) as [H | _]; [lra |].
  destruct (Rlt_dec 0 y) as [Hpos | Hneg].
  - rewrite label_of_degrees; rewrite signed_deg_quarter; [| lra].
    destruct (Rlt_dec 90 (- 90)); [lra |].
    destruct (Rlt_dec 90 0); [lra |].
    destruct (Rle_dec 90 90); [reflexivity | lra].
  - destruct (Rlt_dec y 0) as [Hlt | Hge]; [| lra].
    assert (Hd : signed_deg (- PI / 2) = (- 90)%R).
    { unfold signed_deg. field. apply PI_neq0. }
    rewrite label_of_degrees; rewrite Hd; [| lra].
    destruct (Rlt_dec (- 90) (- 90)); [lra |].
    destruct (Rlt_dec (- 90) 0); [| lra].
    do 3 f_equal. lra.
Qed.

(** The case left out of the statement on swapped end points: when the two
    end points of a well-formed call have the same abscissa and different
    ordinates, the label has its line breaks after the text in both
    directions, with rotations 90 and 270. *)
Lemma swap_on_vertical_chord (fig : Figure) (ax : Axes) (p1 p2 : f64 * f64)
    (k_r : f64) (bool_auto : bool) (str_text : string) (int_line_num : Z) :
  valid_call fig ax p1 p2 k_r ->
  truthy str_text = true ->
  fst p1 = fst p2 ->
  snd p1 <> snd p2 ->
  let txt := str_text ++ str_mul newline int_line_num in
  exists ds res ds' res' (rot rot' : R),
    curlyBrace fig ax p1 p2 k_r bool_auto str_text int_line_num = (ds, inr res) /\
    curlyBrace fig ax p2 p1 k_r bool_auto str_text int_line_num = (ds', inr res') /\
    drawn_label ds = Some (Fin rot, txt) /\
    drawn_label ds' = Some (Fin rot', txt) /\
    ((rot = 90 /\ rot' = 270) \/ (rot = 270 /\ rot' = 90))%R.
Proof.
  intros Hv Ht Hx Hy txt.
  destruct (frame_valid _ _ _ _ _ bool_auto Hv)
    as (X1 & Y1 & X2 & Y2 & k & E1 & E2 & _ & _ & _ & _ & _ & _ & Ny).
  destruct (frame_swap fig ax p1 p2 bool_auto) as [S1 S2].
  assert (HX : X1 = X2).
  { assert (H : fst (pt1 (frame fig ax p1 p2 bool_auto))
                = fst (pt2 (frame fig ax p1 p2 bool_auto)))
      by (rewrite frame_by_axis; cbn [pt1 pt2 fst]; now rewrite Hx).
    rewrite E1, E2 in H. now injection H. }
  subst X2. specialize (Ny Hy).
  assert (Hth : theta (snd (brace fig ax p1 p2 k_r bool_auto))
                = Fin (np.atan2 (Y2 - Y1) 0)).
  { rewrite brace_theta, E1, E2, angle_Fin. unfold pixel_angle.
    f_equal. f_equal. ring. }
  assert (Hth' : theta (snd (brace fig ax p2 p1 k_r bool_auto))
                 = Fin (np.atan2 (Y1 - Y2) 0)).
  { rewrite brace_theta, S1, S2, E1, E2, angle_Fin. unfold pixel_angle.
    f_equal. f_equal. ring. }
  assert (H1 : (Y2 - Y1)%R <> 0%R) by lra.
  assert (H2 : (Y1 - Y2)%R <> 0%R) by lra.
  pose proof (valid_call_dpi _ _ _ _ _ Hv) as Hdpi.
  destruct (curlyBrace_label _ _ _ _ _ _ _ _ _ _ _ Hdpi Hth Ht
              (label_vertical _ str_text int_line_num H1)) as (ds & Hc & Hd).
  destruct (curlyBrace_label _ _ _ _ _ _ _ _ _ _ _ Hdpi Hth' Ht
              (label_vertical _ str_text int_line_num H2)) as (ds' & Hc' & Hd').
  exists ds. eexists. exists ds'. eexists. eexists _, _.
  split; [exact Hc |]. split; [exact Hc' |].
  split; [exact Hd |]. split; [exact Hd' |].
  destruct (Rlt_dec 0 (Y2 - Y1)), (Rlt_dec 0 (Y1 - Y2)); lra.
Qed.

(** ** Coordinates outside the domain of the logarithm *)

Lemma add_NaN_l (a : f64) : NaN + a = NaN.
Proof. now destruct a. Qed.

Lemma add_NaN_r (a : f64) : a + NaN = NaN.
Proof. now destruct a. Qed.

Lemma sub_NaN_l (a : f64) : NaN - a = NaN.
Proof. now destruct a. Qed.

Lemma sub_NaN_r (a : f64) : a - NaN = NaN.
Proof. now destruct a. Qed.

Lemma mul_NaN_l (a : f64) : NaN * a = NaN.
Proof. now destruct a. Qed.

Lemma mul_NaN_r (a : f64) : a * NaN = NaN.
Proof. now destruct a. Qed.

Lemma div_NaN_l (a : f64) : NaN / a = NaN.
Proof. now destruct a. Qed.

Lemma arctan2_NaN_r (a : f64) : np.arctan2 a NaN = NaN.
Proof. now destruct a. Qed.

Lemma log_negative (a : R) : (a < 0)%R -> np.log (Fin a) = NaN.
Proof. intros H. unfold np.log. destruct (Rlt_dec a 0); [reflexivity | lra]. Qed.

Lemma linspace_NaN (stop : f64) :
  np.linspace NaN (NaN + stop) 50 = repeat NaN 50.
Proof.
  rewrite add_NaN_l. unfold np.linspace.
  rewrite (map_constant _ NaN) by (intros; apply add_NaN_r).
  rewrite length_seq. reflexivity.
Qed.

(** Without an angle there is no geometry: every sampled value is [nan]. *)
Lemma pixel_arcs_NaN (pt1 pt2 : f64 * f64) (k_r : f64) :
  angle pt1 pt2 = NaN ->
  pixel_arcs pt1 pt2 k_r =
  {| arc1x := repeat NaN 50; arc1y := repeat NaN 50;
     arc2x := repeat NaN 50; arc2y := repeat NaN 50;
     arc3x := repeat NaN 50; arc3y := repeat NaN 50;
     arc4x := repeat NaN 50; arc4y := repeat NaN 50 |}.
Proof.
  intros H. unfold pixel_arcs. rewrite H, linspace_NaN.
  rewrite rev_repeat, !map_repeat.
  rewrite ?add_NaN_l, ?sub_NaN_l. cbn [np.cos np.sin].
  rewrite !mul_NaN_r, !add_NaN_l. reflexivity.
Qed.

Lemma back_NaN (scale : string) (ratio lim0 : f64) :
  back scale ratio lim0 NaN = NaN.
Proof.
  unfold back. rewrite div_NaN_l, add_NaN_l.
  now destruct (contains_log scale).
Qed.

(** A negative abscissa on a logarithmic x axis leaves the call without an
    angle. *)
Lemma angle_NaN_logx (fig : Figure) (ax : Axes) (p1 p2 : f64 * f64)
    (bool_auto : bool) (a : R) :
  contains_log (xaxis_scale ax) = true ->
  (a < 0)%R ->
  fst p1 = Fin a \/ fst p2 = Fin a ->
  let fr := frame fig ax p1 p2 bool_auto in
  angle (pt1 fr) (pt2 fr) = NaN.
Proof.
  intros Hlog Ha Hp fr. subst fr. rewrite frame_by_axis. cbn [pt1 pt2].
  unfold angle, axis_pixel, axis_coord. cbn [fst snd]. rewrite Hlog.
  destruct Hp as [-> | ->]; rewrite (log_negative a Ha).
  - rewrite sub_NaN_l, mul_NaN_l, sub_NaN_r. apply arctan2_NaN_r.
  - change ((NaN - fst (axis_lim (xaxis_scale ax) (get_xlim ax)))
            * axis_ratio (fst (ax_size fig ax))
                (axis_lim (xaxis_scale ax) (get_xlim ax)) bool_auto)
      with NaN.
    rewrite sub_NaN_l. apply arctan2_NaN_r.
Qed.

Lemma angle_NaN_logy (fig : Figure) (ax : Axes) (p1 p2 : f64 * f64)
    (bool_auto : bool) (a : R) :
  contains_log (yaxis_scale ax) = true ->
  (a < 0)%R ->
  snd p1 = Fin a \/ snd p2 = Fin a ->
  let fr := frame fig ax p1 p2 bool_auto in
  angle (pt1 fr) (pt2 fr) = NaN.
Proof.
  intros Hlog Ha Hp fr. subst fr. rewrite frame_by_axis. cbn [pt1 pt2].
  unfold angle, axis_pixel, axis_coord. cbn [fst snd]. rewrite Hlog.
  destruct Hp as [-> | ->]; rewrite (log_negative a Ha).
  - rewrite sub_NaN_l, mul_NaN_l, sub_NaN_r. reflexivity.
  - change ((NaN - fst (axis_lim (yaxis_scale ax) (get_ylim ax)))
            * axis_ratio (snd (ax_size fig ax))
                (axis_lim (yaxis_scale ax) (get_ylim ax)) bool_auto)
      with NaN.
    rewrite sub_NaN_l. reflexivity.
Qed.

(** The value returned by a call that has no angle. *)
Lemma brace_NaN (fig : Figure) (ax : Axes) (p1 p2 : f64 * f64)
    (k_r : f64) (bool_auto : bool) :
  let fr := frame fig ax p1 p2 bool_auto in
  angle (pt1 fr) (pt2 fr) = NaN ->
  snd (brace fig ax p1 p2 k_r bool_auto) =
  {| theta := NaN; summit := (NaN, NaN);
     arc1 := (repeat NaN 50, repeat NaN 50);
     arc2 := (repeat NaN 50, repeat NaN 50);
     arc3 := (repeat NaN 50, repeat NaN 50);
     arc4 := (repeat NaN 50, repeat NaN 50) |}.
Proof.
  intros fr H. unfold brace. fold fr. cbn [snd].
  rewrite H, (pixel_arcs_NaN _ _ _ H). unfold axis_arcs.
  cbn [arc1x arc1y arc2x arc2y arc3x arc3y arc4x arc4y].
  rewrite !to_axis_repeat, !back_NaN. reflexivity.
Qed.

(** Without a label the call returns once the axes size is known, whatever
    the end points. *)
Lemma curlyBrace_unlabelled (fig : Figure) (ax : Axes) (p1 p2 : f64 * f64)
    (k_r : f64) (bool_auto : bool) (int_line_num : Z) :
  dpi fig <> Fin 0 ->
  let g := brace fig ax p1 p2 k_r bool_auto in
  curlyBrace fig ax p1 p2 k_r bool_auto "" int_line_num = (fst g, inr (snd g)).
Proof.
  intros Hd g. unfold curlyBrace. rewrite (getAxSize_returns fig ax Hd).
  fold g. now destruct g.
Qed.

Lemma label_NaN (str_text : string) (int_line_num : Z) :
  label NaN str_text int_line_num = (None, str_text).
Proof. reflexivity. Qed.

(** With a label and no angle, the call ends on the unassigned rotation,
    after the six line plots. *)
Lemma curlyBrace_unbound_rotation (fig : Figure) (ax : Axes)
    (p1 p2 : f64 * f64) (k_r : f64) (bool_auto : bool) (str_text : string)
    (int_line_num : Z) :
  dpi fig <> Fin 0 ->
  let g := brace fig ax p1 p2 k_r bool_auto in
  theta (snd g) = NaN ->
  truthy str_text = true ->
  curlyBrace fig ax p1 p2 k_r bool_auto str_text int_line_num
  = (fst g, inl UnboundLocalError).
Proof.
  intros Hd g Hth Ht. unfold curlyBrace. rewrite (getAxSize_returns fig ax Hd).
  fold g. destruct g as [plots res]. cbn [fst snd] in *.
  now rewrite Ht, Hth, label_NaN.
Qed.

(** C2, refuted as stated.  On a logarithmic x axis, the call from (-1, 0)
    to (10, 1) without a label reports nothing: it returns, and the angle,
    the summit and the arcs it returns are [nan]. *)
Lemma log_domain_counterexample :
  exists ds res,
    curlyBrace fig0 ax_logx (Fin (- 1), Fin 0) (Fin 10, Fin 1) (Fin (1 / 10))
      true "" 2 = (ds, inr res) /\
    theta res = NaN /\ summit res = (NaN, NaN) /\
    arc1 res = (repeat NaN 50, repeat NaN 50).
Proof.
  eexists _, _. split; [apply curlyBrace_unlabelled, fig0_dpi |].
  rewrite (brace_NaN fig0 ax_logx (Fin (- 1), Fin 0) (Fin 10, Fin 1)).
  - repeat split.
  - apply (angle_NaN_logx _ _ _ _ _ (- 1)); [reflexivity | lra | now left].
Qed.

(** C2, amended.  No domain error is reported.  On a figure with positive
    dots per inch a call without a label returns, whatever the coordinates;
    and when an axis is logarithmic and an end point has a negative
    coordinate on that axis, the angle, the summit and every sampled value
    of the four arcs it returns are [nan]. *)
Theorem log_domain_unreported (fig : Figure) (ax : Axes) (p1 p2 : f64 * f64)
    (k_r : f64) (bool_auto : bool) (int_line_num : Z) :
  is_positive (dpi fig) ->
  exists ds res,
    curlyBrace fig ax p1 p2 k_r bool_auto "" int_line_num = (ds, inr res) /\
    forall a : R,
      (a < 0)%R ->
      (contains_log (xaxis_scale ax) = true /\
       (fst p1 = Fin a \/ fst p2 = Fin a)) \/
      (contains_log (yaxis_scale ax) = true /\
       (snd p1 = Fin a \/ snd p2 = Fin a)) ->
      theta res = NaN /\ summit res = (NaN, NaN) /\
      arc1 res = (repeat NaN 50, repeat NaN 50) /\
      arc2 res = (repeat NaN 50, repeat NaN 50) /\
      arc3 res = (repeat NaN 50, repeat NaN 50) /\
      arc4 res = (repeat NaN 50, repeat NaN 50).
Proof.
  intros Hpos.
  eexists _, _. split; [apply curlyBrace_unlabelled, positive_dpi, Hpos |].
  intros a Ha Hax.
  rewrite (brace_NaN fig ax p1 p2).
  - repeat split.
  - destruct Hax as [[Hlog Hp] | [Hlog Hp]].
    + now apply (angle_NaN_logx _ _ _ _ _ a).
    + now apply (angle_NaN_logy _ _ _ _ _ a).
Qed.

Lemma log_domain_unreported_witness :
  is_positive (dpi fig0) /\
  (- 1 < 0)%R /\
  contains_log (xaxis_scale ax_logx) = true /\
  exists ds res,
    curlyBrace fig0 ax_logx (Fin (- 1), Fin 0) (Fin 10, Fin 1) (Fin (1 / 10))
      true "" 2 = (ds, inr res) /\
    theta res = NaN /\ summit res = (NaN, NaN).
Proof.
  assert (Hpos : is_positive (dpi fig0)) by (simpl; lra).
  split; [exact Hpos |]. split; [lra |]. split; [reflexivity |].
  destruct (log_domain_unreported fig0 ax_logx (Fin (- 1), Fin 0)
              (Fin 10, Fin 1) (Fin (1 / 10)) true 2 Hpos)
    as (ds & res & Hc & Hn).
  exists ds, res. split; [exact Hc |].
  destruct (Hn (- 1)%R) as (Hth & Hs & _).
  - lra.
  - left. split; [reflexivity | now left].
  - split; assumption.
Defined.

(** * Further properties of the code *)

(** ** getAxSize *)

(** X1. With finite dots per inch and a finite window extent, [getAxSize]
    returns the window extent itself when the dots per inch are not zero
    (dividing by them and multiplying back cancel); with zero dots per inch
    the scaling has no inverse and the call raises. *)
Theorem getAxSize_extent (fig : Figure) (ax : Axes) (w h d : R) :
  window_extent ax = (Fin w, Fin h) ->
  dpi fig = Fin d ->
  getAxSize fig ax
  = if Req_dec_T d 0 then inl LinAlgError else inr (Fin w, Fin h).
Proof.
  intros Hw Hd. unfold getAxSize, singular, ax_size. rewrite Hw, Hd.
  cbn [fst snd]. destruct (Req_dec_T d 0) as [-> | Hnz]; [reflexivity |].
  unfold np.div. destruct (Req_dec_T d 0); [contradiction |].
  cbn [np.mul]. do 2 f_equal; f_equal; field; assumption.
Qed.

Lemma getAxSize_extent_witness :
  window_extent ax0 = (Fin 640, Fin 480) /\
  dpi fig0 = Fin 100 /\
  getAxSize fig0 ax0
  = if Req_dec_T 100 0 then inl LinAlgError else inr (Fin 640, Fin 480).
Proof.
  split; [reflexivity |]. split; [reflexivity |].
  exact (getAxSize_extent fig0 ax0 640 480 100 eq_refl eq_refl).
Defined.

(** ** How a call ends *)

Lemma arctan2_Fin_or_NaN (y x : f64) :
  np.arctan2 y x = NaN \/ exists th, np.arctan2 y x = Fin th.
Proof.
  destruct y as [b | | |], x as [a | | |]; cbn [np.arctan2]; eauto.
  destruct (Rlt_dec b 0); eauto.
Qed.

Lemma truthy_false (s : string) : truthy s = false -> s = "".
Proof. now destruct s. Qed.

(** X2. On a figure with zero dots per inch a call raises the error of the
    singular scaling and draws nothing.  On a figure with positive dots per
    inch a call first issues the six line plots (the four arcs and the two
    connecting lines) and nothing else but, at most, one text.  It then
    ends on the unassigned rotation exactly when the label text is not
    empty and the angle is [nan]; otherwise it returns the value of the
    geometry, and it has drawn the text, at the summit, exactly when the
    label text is not empty. *)
Theorem curlyBrace_outcome (fig : Figure) (ax : Axes) (p1 p2 : f64 * f64)
    (k_r : f64) (bool_auto : bool) (str_text : string) (int_line_num : Z) :
  let g := brace fig ax p1 p2 k_r bool_auto in
  let out := curlyBrace fig ax p1 p2 k_r bool_auto str_text int_line_num in
  (dpi fig = Fin 0 -> out = ([], inl LinAlgError)) /\
  (is_positive (dpi fig) ->
   List.length (fst g) = 6%nat /\
   plots_of (fst out) = fst g /\
   (snd out = inl UnboundLocalError <->
    truthy str_text = true /\ theta (snd g) = NaN) /\
   (snd out = inr (snd g) <->
    truthy str_text = false \/ theta (snd g) <> NaN) /\
   ((fst out = fst g /\
     (truthy str_text = false \/ theta (snd g) = NaN)) \/
    (exists txt rotation,
       fst out
       = (fst g ++ [Text (fst (summit (snd g))) (snd (summit (snd g)))
                         txt rotation])%list /\
       truthy str_text = true /\ theta (snd g) <> NaN))).
Proof.
  intros g out.
  split; [intros Hz; now apply curlyBrace_raises |].
  intros Hpos. pose proof (positive_dpi fig Hpos) as Hdpi.
  assert (Hp : plots_of (fst g) = fst g) by reflexivity.
  split; [reflexivity |].
  assert (Hcase : theta (snd g) = NaN \/ exists th, theta (snd g) = Fin th)
    by exact (arctan2_Fin_or_NaN _ _).
  destruct Hcase as [Hnan | [th Hth]].
  - destruct (truthy str_text) eqn:Ht.
    + assert (Ho : out = (fst g, inl UnboundLocalError))
        by (now apply curlyBrace_unbound_rotation).
      rewrite Ho. cbn [fst snd]. rewrite Hnan.
      split; [exact Hp |]. split; [tauto |]. split.
      * split; [discriminate |]. intros [H | H]; [discriminate | congruence].
      * left. tauto.
    + apply truthy_false in Ht. subst str_text.
      assert (Ho : out = (fst g, inr (snd g)))
        by (now apply curlyBrace_unlabelled).
      rewrite Ho. cbn [fst snd truthy].
      split; [exact Hp |]. split; [| split].
      * split; [discriminate | intros [H _]; discriminate].
      * tauto.
      * left. tauto.
  - assert (Ho : out = ((fst g ++ label_draw (snd g) str_text int_line_num)%list,
                        inr (snd g)))
      by (now apply (curlyBrace_finite_angle _ _ _ _ _ _ _ _ th)).
    rewrite Ho. cbn [fst snd]. rewrite Hth.
    split.
    { unfold plots_of. rewrite filter_app.
      fold (plots_of (fst g)).
      fold (plots_of (label_draw (snd g) str_text int_line_num)).
      now rewrite plots_of_label_draw, app_nil_r. }
    split; [split; [discriminate | intros [_ H]; discriminate] |].
    split; [split; [right; discriminate | reflexivity] |].
    unfold label_draw. rewrite Hth.
    destruct (truthy str_text).
    + right. destruct (label_assigned th str_text int_line_num) as (r & txt & E).
      rewrite E. exists txt, (Fin r).
      split; [reflexivity |]. split; [reflexivity | discriminate].
    + left. rewrite app_nil_r. tauto.
Qed.

Lemma curlyBrace_outcome_witness :
  dpi {| dpi := Fin 0 |} = Fin 0 /\
  curlyBrace {| dpi := Fin 0 |} ax0 (Fin 0, Fin 0) (Fin 1, Fin 1)
    (Fin (1 / 10)) true "Span" 2 = ([], inl LinAlgError) /\
  is_positive (dpi fig0) /\
  plots_of
    (fst (curlyBrace fig0 ax_logx (Fin (- 1), Fin 0) (Fin 10, Fin 1)
            (Fin (1 / 10)) true "Span" 2))
  = fst (brace fig0 ax_logx (Fin (- 1), Fin 0) (Fin 10, Fin 1)
           (Fin (1 / 10)) true) /\
  (snd (curlyBrace fig0 ax_logx (Fin (- 1), Fin 0) (Fin 10, Fin 1)
          (Fin (1 / 10)) true "Span" 2) = inl UnboundLocalError <->
   truthy "Span" = true /\
   theta (snd (brace fig0 ax_logx (Fin (- 1), Fin 0) (Fin 10, Fin 1)
                 (Fin (1 / 10)) true)) = NaN).
Proof.
  assert (Hpos : is_positive (dpi fig0)) by (simpl; lra).
  split; [reflexivity |].
  split.
  - exact (proj1 (curlyBrace_outcome {| dpi := Fin 0 |} ax0 (Fin 0, Fin 0)
                    (Fin 1, Fin 1) (Fin (1 / 10)) true "Span" 2) eq_refl).
  - split; [exact Hpos |].
    destruct (proj2 (curlyBrace_outcome fig0 ax_logx (Fin (- 1), Fin 0)
                       (Fin 10, Fin 1) (Fin (1 / 10)) true "Span" 2) Hpos)
      as (_ & Hplots & Hraise & _).
    split; [exact Hplots | exact Hraise].
Defined.

(** ** Shape of the returned arrays *)

(** X3. Whatever the call is given, each of the four arcs of the geometry
    has 50 abscissas and 50 ordinates, and each connecting line is drawn
    through two points. *)
Theorem arcs_hold_50_samples (fig : Figure) (ax : Axes) (p1 p2 : f64 * f64)
    (k_r : f64) (bool_auto : bool) :
  let g := brace fig ax p1 p2 k_r bool_auto in
  let res := snd g in
  (List.length (fst (arc1 res)) = 50 /\ List.length (snd (arc1 res)) = 50 /\
   List.length (fst (arc2 res)) = 50 /\ List.length (snd (arc2 res)) = 50 /\
   List.length (fst (arc3 res)) = 50 /\ List.length (snd (arc3 res)) = 50 /\
   List.length (fst (arc4 res)) = 50 /\ List.length (snd (arc4 res)) = 50)%nat /\
  exists a1 b1 a2 b2 c1 d1 c2 d2,
    fst g =
    [ Plot (fst (arc1 res)) (snd (arc1 res));
      Plot (fst (arc2 res)) (snd (arc2 res));
      Plot (fst (arc3 res)) (snd (arc3 res));
      Plot (fst (arc4 res)) (snd (arc4 res));
      Plot [a1; a2] [b1; b2];
      Plot [c1; c2] [d1; d2] ].
Proof.
  intros g res. split.
  - subst res g. unfold brace. cbn [snd arc1 arc2 arc3 arc4 fst].
    unfold axis_arcs. cbn [arc1x arc1y arc2x arc2y arc3x arc3y arc4x arc4y].
    rewrite !to_axis_length. apply pixel_arcs_length.
  - subst res g. unfold brace. cbn [fst snd arc1 arc2 arc3 arc4].
    now eexists _, _, _, _, _, _, _, _.
Qed.



(** ** The drawn label *)

(** A call has drawn a text only if its label text is not empty and its
    angle is finite; the rotation and the text are then those of [label]. *)
Lemma drawn_label_inv (fig : Figure) (ax : Axes) (p1 p2 : f64 * f64)
    (k_r : f64) (bool_auto : bool) (str_text : string) (int_line_num : Z)
    (rotation : f64) (txt : string) :
  drawn_label
    (fst (curlyBrace fig ax p1 p2 k_r bool_auto str_text int_line_num))
  = Some (rotation, txt) ->
  exists th,
    theta (snd (brace fig ax p1 p2 k_r bool_auto)) = Fin th /\
    truthy str_text = true /\
    label (Fin th) str_text int_line_num = (Some rotation, txt).
Proof.
  set (g := brace fig ax p1 p2 k_r bool_auto).
  assert (Hnone : drawn_label (fst g) = None) by reflexivity.
  assert (Hcase : theta (snd g) = NaN \/ exists th, theta (snd g) = Fin th)
    by exact (arctan2_Fin_or_NaN _ _).
  intros H. destruct (dpi_cases fig) as [Hz | Hdpi].
  { rewrite (curlyBrace_raises _ _ _ _ _ _ _ _ Hz) in H. discriminate H. }
  destruct Hcase as [Hnan | [th Hth]].
  - exfalso. destruct (truthy str_text) eqn:Ht.
    + rewrite (curlyBrace_unbound_rotation _ _ _ _ _ _ _ _ Hdpi Hnan Ht) in H.
      cbn [fst] in H. fold g in H. congruence.
    + apply truthy_false in Ht. subst str_text.
      rewrite (curlyBrace_unlabelled _ _ _ _ _ _ _ Hdpi) in H.
      cbn [fst] in H. fold g in H. congruence.
  - exists th. split; [exact Hth |].
    rewrite (curlyBrace_finite_angle _ _ _ _ _ _ _ _ th Hdpi Hth) in H.
    cbn [fst] in H. fold g in H. unfold label_draw in H. rewrite Hth in H.
    destruct (truthy str_text).
    + destruct (label_assigned th str_text int_line_num) as (r & t & E).
      rewrite E in H. rewrite drawn_label_last in H.
      split; [reflexivity |]. rewrite E. congruence.
    + rewrite app_nil_r in H. congruence.
Qed.

(** X6. Whenever a call draws its label, the rotation is finite and lies in
    [0, 90] or in [270, 450): the text is never drawn upside down. *)
Theorem rotation_upright (fig : Figure) (ax : Axes) (p1 p2 : f64 * f64)
    (k_r : f64) (bool_auto : bool) (str_text : string) (int_line_num : Z)
    (rotation : f64) (txt : string) :
  drawn_label
    (fst (curlyBrace fig ax p1 p2 k_r bool_auto str_text int_line_num))
  = Some (rotation, txt) ->
  exists r : R,
    rotation = Fin r /\ ((0 <= r <= 90)%R \/ (270 <= r < 450)%R).
Proof.
  intros H. destruct (drawn_label_inv _ _ _ _ _ _ _ _ _ _ H) as (th & _ & _ & Hl).
  rewrite label_Fin in Hl. pose proof (ang_deg_range th) as Hr.
  destruct (Rle_dec (ang_deg th) 90);
    [| destruct (Rlt_dec (ang_deg th) 270)];
    injection Hl as <- _; eexists; (split; [reflexivity | lra]).
Qed.

Lemma rotation_upright_witness :
  exists rotation txt,
    drawn_label
      (fst (curlyBrace fig0 ax0 (Fin 1, Fin 1) (Fin 0, Fin 0) (Fin (1 / 10))
              false "Span" 1))
    = Some (rotation, txt) /\
    exists r : R,
      rotation = Fin r /\ ((0 <= r <= 90)%R \/ (270 <= r < 450)%R).
Proof.
  destruct scenario_label_swapped as (ds & res & Hc & _ & Hd).
  exists (Fin 405), (newline ++ "Span").
  assert (H : drawn_label
                (fst (curlyBrace fig0 ax0 (Fin 1, Fin 1) (Fin 0, Fin 0)
                        (Fin (1 / 10)) false "Span" 1))
              = Some (Fin 405, newline ++ "Span"))
    by (rewrite Hc; exact Hd).
  split; [exact H |].
  exact (rotation_upright _ _ _ _ _ _ _ _ _ _ H).
Defined.

Lemma string_length_append (s1 s2 : string) :
  String.length (s1 ++ s2) = (String.length s1 + String.length s2)%nat.
Proof. induction s1 as [| c s1 IH]; simpl; [reflexivity | now rewrite IH]. Qed.

Lemma string_append_empty (s : string) : s ++ "" = s.
Proof. induction s as [| c s IH]; simpl; [reflexivity | now rewrite IH]. Qed.

Lemma str_mul_newline_length (n : Z) :
  String.length (str_mul newline n) = Z.to_nat n.
Proof.
  unfold str_mul. induction (Z.to_nat n) as [| k IH]; simpl; [reflexivity |].
  now rewrite IH.
Qed.

Lemma str_mul_nonpositive (s : string) (n : Z) : (n <= 0)%Z -> str_mul s n = "".
Proof.
  intros H. unfold str_mul. replace (Z.to_nat n) with 0%nat by lia. reflexivity.
Qed.

(** X7. Whenever a call draws its label, the text drawn is the label text
    with [int_line_num] line breaks added on one side; when the count is
    zero or negative none is added and the text is drawn unchanged. *)
Theorem label_text_padding (fig : Figure) (ax : Axes) (p1 p2 : f64 * f64)
    (k_r : f64) (bool_auto : bool) (str_text : string) (int_line_num : Z)
    (rotation : f64) (txt : string) :
  drawn_label
    (fst (curlyBrace fig ax p1 p2 k_r bool_auto str_text int_line_num))
  = Some (rotation, txt) ->
  let str_temp := str_mul newline int_line_num in
  (txt = str_text ++ str_temp \/ txt = str_temp ++ str_text) /\
  String.length txt = (String.length str_text + Z.to_nat int_line_num)%nat /\
  ((int_line_num <= 0)%Z -> txt = str_text).
Proof.
  intros H str_temp.
  destruct (drawn_label_inv _ _ _ _ _ _ _ _ _ _ H) as (th & _ & _ & Hl).
  rewrite label_Fin in Hl. fold str_temp in Hl.
  assert (Hcase : txt = str_text ++ str_temp \/ txt = str_temp ++ str_text).
  { destruct (Rle_dec (ang_deg th) 90);
      [| destruct (Rlt_dec (ang_deg th) 270)];
      injection Hl as _ <-; tauto. }
  split; [exact Hcase |]. split.
  - destruct Hcase as [-> | ->]; rewrite string_length_append;
      subst str_temp; rewrite str_mul_newline_length; lia.
  - intros Hn. subst str_temp. rewrite (str_mul_nonpositive _ _ Hn) in Hcase.
    destruct Hcase as [-> | ->]; [apply string_append_empty | reflexivity].
Qed.

Lemma label_text_padding_witness :
  exists rotation txt,
    drawn_label
      (fst (curlyBrace fig0 ax0 (Fin 0, Fin 0) (Fin 1, Fin 1) (Fin (1 / 10))
              false "Span" 1))
    = Some (rotation, txt) /\
    String.length txt = 5%nat.
Proof.
  destruct scenario_label as (ds & res & Hc & _ & Hd).
  exists (Fin 45), ("Span" ++ newline).
  assert (H : drawn_label
                (fst (curlyBrace fig0 ax0 (Fin 0, Fin 0) (Fin 1, Fin 1)
                        (Fin (1 / 10)) false "Span" 1))
              = Some (Fin 45, "Span" ++ newline))
    by (rewrite Hc; exact Hd).
  split; [exact H |].
  exact (proj1 (proj2 (label_text_padding _ _ _ _ _ _ _ _ _ _ H))).
Defined.

(** ** The arcs are arcs of circles *)

Lemma Forall2_map_same {A B C : Type} (P : B -> C -> Prop) (f : A -> B)
    (g : A -> C) (l : list A) :
  (forall a, P (f a) (g a)) -> Forall2 P (map f l) (map g l).
Proof.
  intros H. induction l as [| a l IH]; simpl; constructor; auto.
Qed.

Lemma pixel_radius_sqr (x1 y1 x2 y2 k : R) :
  (pixel_radius x1 y1 x2 y2 k * pixel_radius x1 y1 x2 y2 k
   = k * k * ((x2 - x1) * (x2 - x1) + (y2 - y1) * (y2 - y1)))%R.
Proof.
  unfold pixel_radius.
  set (S := ((x2 - x1) * (x2 - x1) + (y2 - y1) * (y2 - y1))%R).
  assert (HS : (0 <= S)%R).
  { subst S. apply Rplus_le_le_0_compat; apply Rle_0_sqr. }
  pose proof (sqrt_def S HS) as Hd.
  replace (sqrt S * k * (sqrt S * k))%R with (k * k * (sqrt S * sqrt S))%R by ring.
  now rewrite Hd.
Qed.

Lemma cos_sin_sqr (a : R) : (cos a * cos a + sin a * sin a = 1)%R.
Proof. pose proof (sin2_cos2 a) as H. unfold Rsqr in H. lra. Qed.

(** A point at distance [r] from a centre named through the products of
    the radius by the cosine and the sine of the bracket angle. *)
Lemma circle_point (r u v ox oy rc rs kx ky r2 : R) :
  rc = kx -> rs = ky -> (r * r = r2)%R -> (u * u + v * v = 1)%R ->
  ((r * u + (ox + rc) - (ox + kx)) * (r * u + (ox + rc) - (ox + kx))
   + (r * v + (oy + rs) - (oy + ky)) * (r * v + (oy + rs) - (oy + ky))
   = r2)%R.
Proof.
  intros -> -> <- H.
  replace ((r * u + (ox + kx) - (ox + kx)) * (r * u + (ox + kx) - (ox + kx))
           + (r * v + (oy + ky) - (oy + ky)) * (r * v + (oy + ky) - (oy + ky)))%R
    with (r * r * (u * u + v * v))%R by ring.
  rewrite H. ring.
Qed.

(** X8. On every well-formed call, in pixel space, the 50 points of each
    arc are finite and lie on a circle whose radius is the gain times the
    length of the chord: around [pt1] moved by the gain times the chord for
    [arc1], around [pt2] moved back by as much for [arc4], and around the
    middle of the chord moved by twice the gain times the chord turned a
    quarter turn, then back (arc2) or forth (arc3) by the gain times the
    chord. *)
Theorem arcs_on_circles (fig : Figure) (ax : Axes) (p1 p2 : f64 * f64)
    (k_r : f64) (bool_auto : bool) :
  valid_call fig ax p1 p2 k_r ->
  let fr := frame fig ax p1 p2 bool_auto in
  let pa := pixel_arcs (pt1 fr) (pt2 fr) k_r in
  exists X1 Y1 X2 Y2 k : R,
    pt1 fr = (Fin X1, Fin Y1) /\ pt2 fr = (Fin X2, Fin Y2) /\ k_r = Fin k /\
    let dx := (X2 - X1)%R in
    let dy := (Y2 - Y1)%R in
    let mx := ((X2 + X1) / 2)%R in
    let my := ((Y2 + Y1) / 2)%R in
    let r2 := (k * k * (dx * dx + dy * dy))%R in
    on_circle (X1 + k * dx) (Y1 + k * dy) r2 (arc1x pa) (arc1y pa) /\
    on_circle (mx - 2 * k * dy - k * dx) (my + 2 * k * dx - k * dy) r2
      (arc2x pa) (arc2y pa) /\
    on_circle (mx - 2 * k * dy + k * dx) (my + 2 * k * dx + k * dy) r2
      (arc3x pa) (arc3y pa) /\
    on_circle (X2 - k * dx) (Y2 - k * dy) r2 (arc4x pa) (arc4y pa).
Proof.
  intros Hv fr pa.
  destruct (frame_valid _ _ _ _ _ bool_auto Hv)
    as (X1 & Y1 & X2 & Y2 & k & E1 & E2 & Ek & _).
  exists X1, Y1, X2, Y2, k. fold fr in E1, E2.
  split; [exact E1 |]. split; [exact E2 |]. split; [exact Ek |].
  intros dx dy mx my r2. subst pa. rewrite E1, E2, Ek, pixel_arcs_Fin.
  cbv zeta. cbn [arc1x arc1y arc2x arc2y arc3x arc3y arc4x arc4y].
  pose proof (radius_cos X1 Y1 X2 Y2 k) as Hrc.
  pose proof (radius_sin X1 Y1 X2 Y2 k) as Hrs.
  pose proof (pixel_radius_sqr X1 Y1 X2 Y2 k) as Hr2.
  fold dx dy in Hrc, Hrs, Hr2. fold r2 in Hr2.
  set (r := pixel_radius X1 Y1 X2 Y2 k) in *.
  set (c := cos (pixel_angle X1 Y1 X2 Y2)) in *.
  set (s := sin (pixel_angle X1 Y1 X2 Y2)) in *.
  unfold on_circle.
  repeat split; apply Forall2_map_same; intros a;
    eexists _, _; (split; [reflexivity |]); (split; [reflexivity |]).
  - apply circle_point; auto using cos_sin_sqr.
  - pose proof (cos_sin_sqr (a - PI / 2)) as H.
    set (u := cos (a - PI / 2)) in *. set (v := sin (a - PI / 2)) in *.
    subst mx my.
    replace ((r * u + ((X2 + X1) / 2 - 2 * r * s - r * c)
              - ((X2 + X1) / 2 - 2 * k * dy - k * dx)))%R
      with (r * u - 2 * (r * s - k * dy) - (r * c - k * dx))%R by ring.
    replace ((r * v + ((Y2 + Y1) / 2 + 2 * r * c - r * s)
              - ((Y2 + Y1) / 2 + 2 * k * dx - k * dy)))%R
      with (r * v + 2 * (r * c - k * dx) - (r * s - k * dy))%R by ring.
    rewrite Hrc, Hrs, <- Hr2.
    replace ((r * u - 2 * (k * dy - k * dy) - (k * dx - k * dx))
             * (r * u - 2 * (k * dy - k * dy) - (k * dx - k * dx))
             + (r * v + 2 * (k * dx - k * dx) - (k * dy - k * dy))
               * (r * v + 2 * (k * dx - k * dx) - (k * dy - k * dy)))%R
      with (r * r * (u * u + v * v))%R by ring.
    rewrite H. ring.
  - pose proof (cos_sin_sqr (a + PI)) as H.
    set (u := cos (a + PI)) in *. set (v := sin (a + PI)) in *.
    subst mx my.
    replace ((r * u + ((X2 + X1) / 2 - 2 * r * s + r * c)
              - ((X2 + X1) / 2 - 2 * k * dy + k * dx)))%R
      with (r * u - 2 * (r * s - k * dy) + (r * c - k * dx))%R by ring.
    replace ((r * v + ((Y2 + Y1) / 2 + 2 * r * c + r * s)
              - ((Y2 + Y1) / 2 + 2 * k * dx + k * dy)))%R
      with (r * v + 2 * (r * c - k * dx) + (r * s - k * dy))%R by ring.
    rewrite Hrc, Hrs, <- Hr2.
    replace ((r * u - 2 * (k * dy - k * dy) + (k * dx - k * dx))
             * (r * u - 2 * (k * dy - k * dy) + (k * dx - k * dx))
             + (r * v + 2 * (k * dx - k * dx) + (k * dy - k * dy))
               * (r * v + 2 * (k * dx - k * dx) + (k * dy - k * dy)))%R
      with (r * r * (u * u + v * v))%R by ring.
    rewrite H. ring.
  - pose proof (cos_sin_sqr a) as H.
    set (u := cos a) in *. set (v := sin a) in *.
    replace ((r * u + (X2 - r * c) - (X2 - k * dx)))%R
      with (r * u - (r * c - k * dx))%R by ring.
    replace ((r * v + (Y2 - r * s) - (Y2 - k * dy)))%R
      with (r * v - (r * s - k * dy))%R by ring.
    rewrite Hrc, Hrs, <- Hr2.
    replace ((r * u - (k * dx - k * dx)) * (r * u - (k * dx - k * dx))
             + (r * v - (k * dy - k * dy)) * (r * v - (k * dy - k * dy)))%R
      with (r * r * (u * u + v * v))%R by ring.
    rewrite H. ring.
Qed.

Lemma arcs_on_circles_witness :
  valid_call fig0 ax0 (Fin 0, Fin 0) (Fin 1, Fin 1) (Fin (1 / 10)) /\
  let fr := frame fig0 ax0 (Fin 0, Fin 0) (Fin 1, Fin 1) true in
  let pa := pixel_arcs (pt1 fr) (pt2 fr) (Fin (1 / 10)) in
  exists X1 Y1 X2 Y2 k : R,
    pt1 fr = (Fin X1, Fin Y1) /\ pt2 fr = (Fin X2, Fin Y2) /\
    on_circle (X1 + k * (X2 - X1)) (Y1 + k * (Y2 - Y1))
      (k * k * ((X2 - X1) * (X2 - X1) + (Y2 - Y1) * (Y2 - Y1)))
      (arc1x pa) (arc1y pa).
Proof.
  assert (Hv : valid_call fig0 ax0 (Fin 0, Fin 0) (Fin 1, Fin 1)
                 (Fin (1 / 10))) by apply valid_linear.
  split; [exact Hv |].
  destruct (arcs_on_circles fig0 ax0 (Fin 0, Fin 0) (Fin 1, Fin 1)
              (Fin (1 / 10)) true Hv)
    as (X1 & Y1 & X2 & Y2 & k & E1 & E2 & _ & H1 & _).
  exists X1, Y1, X2, Y2, k. repeat split; assumption.
Defined.

(** ** Swapping the end points: the geometry *)

Lemma valid_axis_swap (scale : string) (lim : f64 * f64) (c1 c2 : f64) :
  valid_axis scale lim c1 c2 -> valid_axis scale lim c2 c1.
Proof. unfold valid_axis. intros (? & ? & ? & ? & ? & H). tauto. Qed.

Lemma valid_call_swap (fig : Figure) (ax : Axes) (p1 p2 : f64 * f64)
    (k_r : f64) :
  valid_call fig ax p1 p2 k_r -> valid_call fig ax p2 p1 k_r.
Proof.
  unfold valid_call. intros (? & ? & ? & Hx & Hy & ?).
  apply valid_axis_swap in Hx, Hy. tauto.
Qed.

(** The ratios and the lower limits of a well-formed call are finite, the
    ratios are not zero, and they do not depend on the end points. *)
Lemma frame_valid_scales (fig : Figure) (ax : Axes) (p1 p2 : f64 * f64)
    (k_r : f64) (bool_auto : bool) :
  valid_call fig ax p1 p2 k_r ->
  exists sx sy lx ly : R,
    sx <> 0%R /\ sy <> 0%R /\
    (bool_auto = false -> sx = 1%R /\ sy = 1%R) /\
    forall q1 q2,
      let fr := frame fig ax q1 q2 bool_auto in
      xscale fr = Fin sx /\ yscale fr = Fin sy /\
      fst (ax_xlim fr) = Fin lx /\ fst (ax_ylim fr) = Fin ly.
Proof.
  intros (Hd & Hw & Hh & Hx & Hy & Hk).
  destruct (ax_size_positive fig ax Hd Hw Hh) as [Pw Ph].
  destruct (axis_valid _ _ _ bool_auto _ _ Pw Hx)
    as (lx & sx & _ & _ & Hlx & Hsx & Hsx0 & _).
  destruct (axis_valid _ _ _ bool_auto _ _ Ph Hy)
    as (ly & sy & _ & _ & Hly & Hsy & Hsy0 & _).
  exists sx, sy, lx, ly.
  split; [exact Hsx0 |]. split; [exact Hsy0 |]. split.
  - intros ->. unfold axis_ratio in Hsx, Hsy.
    injection Hsx as <-. injection Hsy as <-. tauto.
  - intros q1 q2 fr. subst fr. rewrite frame_by_axis.
    cbn [xscale yscale ax_xlim ax_ylim]. tauto.
Qed.

(** On an axis that is not logarithmic the conversion back is affine; on a
    logarithmic axis it is the exponential of an affine map. *)
Lemma back_affine (scale : string) (s l v : R) :
  s <> 0%R ->
  back scale (Fin s) (Fin l) (Fin v)
  = if contains_log scale then Fin (exp (v / s + l)) else Fin (v / s + l).
Proof.
  intros Hs. unfold back. rewrite div_Fin by assumption.
  now destruct (contains_log scale).
Qed.

(** X9. On every well-formed call, swapping the end points puts the summit
    on the other side of the chord: on an axis that is not logarithmic the
    coordinates of the two summits add up to those of the two end points
    (the middle of the chord is the middle of the two summits), and on a
    logarithmic axis they multiply to the product of those of the end
    points. *)
Theorem summit_mirrored_by_swap (fig : Figure) (ax : Axes)
    (p1 p2 : f64 * f64) (k_r : f64) (bool_auto : bool) (str_text : string)
    (int_line_num : Z) :
  valid_call fig ax p1 p2 k_r ->
  exists ds res ds' res',
    curlyBrace fig ax p1 p2 k_r bool_auto str_text int_line_num = (ds, inr res) /\
    curlyBrace fig ax p2 p1 k_r bool_auto str_text int_line_num = (ds', inr res') /\
    (if contains_log (xaxis_scale ax)
     then fst (summit res) * fst (summit res') = fst p1 * fst p2
     else fst (summit res) + fst (summit res') = fst p1 + fst p2) /\
    (if contains_log (yaxis_scale ax)
     then snd (summit res) * snd (summit res') = snd p1 * snd p2
     else snd (summit res) + snd (summit res') = snd p1 + snd p2).
Proof.
  intros Hv. pose proof (valid_call_swap _ _ _ _ _ Hv) as Hv'.
  eexists _, _, _, _.
  split; [now apply curlyBrace_returns |].
  split; [now apply curlyBrace_returns |].
  destruct (frame_valid_scales _ _ _ _ _ bool_auto Hv)
    as (sx & sy & lx & ly & Hsx & Hsy & _ & Hfr).
  destruct (frame_valid _ _ _ _ _ bool_auto Hv)
    as (X1 & Y1 & X2 & Y2 & k & E1 & E2 & Ek & Bx1 & By1 & Bx2 & By2 & _).
  destruct (frame_swap fig ax p1 p2 bool_auto) as [S1 S2].
  destruct (Hfr p1 p2) as (Fx & Fy & Lx & Ly).
  destruct (Hfr p2 p1) as (Fx' & Fy' & Lx' & Ly').
  rewrite Fx, Lx in Bx1, Bx2. rewrite Fy, Ly in By1, By2.
  rewrite back_affine in Bx1, Bx2, By1, By2 by assumption.
  ends_to_pixel.
  rewrite S1, S2, E1, E2, Ek, Fx, Fy, Lx, Ly, Fx', Fy', Lx', Ly'.
  rewrite (proj1 (arc2_last X1 Y1 X2 Y2 k)), (proj2 (arc2_last X1 Y1 X2 Y2 k)).
  rewrite (proj1 (arc2_last X2 Y2 X1 Y1 k)), (proj2 (arc2_last X2 Y2 X1 Y1 k)).
  rewrite !back_affine by assumption.
  rewrite <- Bx1, <- Bx2, <- By1, <- By2.
  split.
  - destruct (contains_log (xaxis_scale ax)); cbn [np.add np.mul]; f_equal.
    + rewrite <- !exp_plus. f_equal. now field.
    + now field.
  - destruct (contains_log (yaxis_scale ax)); cbn [np.add np.mul]; f_equal.
    + rewrite <- !exp_plus. f_equal. now field.
    + now field.
Qed.

Lemma summit_mirrored_by_swap_witness :
  valid_call fig0 ax_logx (Fin 1, Fin 0) (Fin 10, Fin 1) (Fin (1 / 10)) /\
  exists ds res ds' res',
    curlyBrace fig0 ax_logx (Fin 1, Fin 0) (Fin 10, Fin 1) (Fin (1 / 10))
      true "" 2 = (ds, inr res) /\
    curlyBrace fig0 ax_logx (Fin 10, Fin 1) (Fin 1, Fin 0) (Fin (1 / 10))
      true "" 2 = (ds', inr res') /\
    fst (summit res) * fst (summit res') = Fin 1 * Fin 10 /\
    snd (summit res) + snd (summit res') = Fin 0 + Fin 1.
Proof.
  assert (Hv : valid_call fig0 ax_logx (Fin 1, Fin 0) (Fin 10, Fin 1)
                 (Fin (1 / 10))) by (apply valid_logx; lra).
  split; [exact Hv |].
  exact (summit_mirrored_by_swap fig0 ax_logx (Fin 1, Fin 0) (Fin 10, Fin 1)
           (Fin (1 / 10)) true "" 2 Hv).
Defined.



(** ** Which axes count as logarithmic *)

Lemma contains_log_inside (pre post : string) :
  contains_log (pre ++ "log" ++ post) = true.
Proof.
  unfold contains_log. induction pre as [| c pre IH].
  - simpl. now destruct post.
  - change (String c pre ++ "log" ++ post)
      with (String c (pre ++ "log" ++ post)).
    cbn [index].
    destruct (prefix "log" (String c (pre ++ "log" ++ post))); [reflexivity |].
    destruct (index 0 "log" (pre ++ "log" ++ post)); [reflexivity | discriminate].
Qed.

(** X11. An axis is treated as logarithmic as soon as the name of its scale
    contains ["log"] (as in ["symlog"] or ["logit"]): on such an x axis of a
    figure with positive dots per inch the limits and the abscissas of the
    end points are replaced by their natural logarithms, so a call without
    a label whose end point has a negative abscissa returns [nan] for the
    angle and the summit. *)
Theorem log_in_scale_name (fig : Figure) (ax : Axes) (p1 p2 : f64 * f64)
    (k_r : f64) (bool_auto : bool) (int_line_num : Z) (pre post : string) :
  is_positive (dpi fig) ->
  xaxis_scale ax = pre ++ "log" ++ post ->
  let fr := frame fig ax p1 p2 bool_auto in
  ax_xlim fr = (np.log (fst (get_xlim ax)), np.log (snd (get_xlim ax))) /\
  fst (pt1 fr) = (np.log (fst p1) - np.log (fst (get_xlim ax))) * xscale fr /\
  fst (pt2 fr) = (np.log (fst p2) - np.log (fst (get_xlim ax))) * xscale fr /\
  forall a : R,
    (a < 0)%R ->
    fst p1 = Fin a \/ fst p2 = Fin a ->
    exists ds res,
      curlyBrace fig ax p1 p2 k_r bool_auto "" int_line_num = (ds, inr res) /\
      theta res = NaN /\ summit res = (NaN, NaN).
Proof.
  intros Hpos Hname fr.
  assert (Hlog : contains_log (xaxis_scale ax) = true)
    by (rewrite Hname; apply contains_log_inside).
  subst fr. rewrite frame_by_axis.
  cbn [ax_xlim pt1 pt2 xscale fst].
  unfold axis_pixel, axis_coord, axis_lim. rewrite Hlog. cbn [fst].
  repeat split.
  intros a Ha Hp.
  eexists _, _. split; [apply curlyBrace_unlabelled, positive_dpi, Hpos |].
  rewrite (brace_NaN fig ax p1 p2).
  - split; reflexivity.
  - now apply (angle_NaN_logx _ _ _ _ _ a).
Qed.

Lemma log_in_scale_name_witness :
  let ax :=
    {| window_extent := (Fin 640, Fin 480);
       get_xlim := (Fin (- 10), Fin 10);
       get_ylim := (Fin 0, Fin 2);
       xaxis_scale := "symlog";
       yaxis_scale := "linear" |} in
  is_positive (dpi fig0) /\
  xaxis_scale ax = "sym" ++ "log" ++ "" /\
  exists ds res,
    curlyBrace fig0 ax (Fin (- 1), Fin 0) (Fin 5, Fin 1) (Fin (1 / 10)) true
      "" 2 = (ds, inr res) /\
    theta res = NaN /\ summit res = (NaN, NaN).
Proof.
  intros ax.
  assert (Hpos : is_positive (dpi fig0)) by (simpl; lra).
  split; [exact Hpos |]. split; [reflexivity |].
  destruct (log_in_scale_name fig0 ax (Fin (- 1), Fin 0) (Fin 5, Fin 1)
              (Fin (1 / 10)) true 2 "sym" "" Hpos eq_refl)
    as (_ & _ & _ & H).
  apply (H (- 1)%R); [lra | now left].
Defined.

(** ** The summit in the coordinates of linear axes *)



(** ** A zero coordinate on a logarithmic axis *)

Lemma log_zero : np.log (Fin 0) = NInf.
Proof.
  unfold np.log. destruct (Rlt_dec 0 0); [lra |].
  destruct (Req_dec_T 0 0); [reflexivity | lra].
Qed.

Lemma inf_of_sign_pos (x : R) : (0 < x)%R -> np.inf_of_sign x = PInf.
Proof.
  intros H. unfold np.inf_of_sign.
  destruct (Req_dec_T x 0); [lra |]. destruct (Rlt_dec 0 x); [reflexivity | lra].
Qed.

Lemma inf_of_sign_neg (x : R) : (x < 0)%R -> np.inf_of_sign x = NInf.
Proof.
  intros H. unfold np.inf_of_sign.
  destruct (Req_dec_T x 0); [lra |]. destruct (Rlt_dec 0 x); [lra | reflexivity].
Qed.

Lemma inf_of_sign_zero : np.inf_of_sign 0 = NaN.
Proof. unfold np.inf_of_sign. destruct (Req_dec_T 0 0); [reflexivity | lra]. Qed.

(** The geometry between a first end point infinitely far to the left and
    a finite second one, with a positive gain: the angle is 0 and the
    second arc is [nan] throughout. *)
Lemma pixel_arcs_left_infinite (Y1 X2 Y2 k : R) :
  (0 < k)%R ->
  angle (NInf, Fin Y1) (Fin X2, Fin Y2) = Fin 0 /\
  arc2x (pixel_arcs (NInf, Fin Y1) (Fin X2, Fin Y2) (Fin k)) = repeat NaN 50 /\
  arc2y (pixel_arcs (NInf, Fin Y1) (Fin X2, Fin Y2) (Fin k)) = repeat NaN 50.
Proof.
  intros Hk.
  assert (Ha : angle (NInf, Fin Y1) (Fin X2, Fin Y2) = Fin 0) by reflexivity.
  assert (Hr : radius (NInf, Fin Y1) (Fin X2, Fin Y2) (Fin k) = PInf).
  { unfold radius. cbn [fst snd np.sub np.add np.neg np.hypot np.mul].
    now apply inf_of_sign_pos. }
  split; [exact Ha |].
  unfold pixel_arcs. rewrite Ha, Hr.
  cbn [arc2x arc2y fst snd np.sin np.cos]. rewrite sin_0, cos_0.
  assert (H2 : Fin 2 * PInf = PInf) by (apply inf_of_sign_pos; lra).
  assert (H0 : PInf * Fin 0 = NaN) by apply inf_of_sign_zero.
  rewrite H2, H0, !sub_NaN_r, !sub_NaN_l.
  split.
  - rewrite (map_constant _ NaN) by (intros; apply add_NaN_r).
    now rewrite linspace_length.
  - rewrite (map_constant _ NaN) by (intros; apply add_NaN_r).
    now rewrite linspace_length.
Qed.

(** X13. A zero abscissa is not rejected either.  On a logarithmic x axis
    with positive increasing limits, when [p1] has abscissa 0, [p2] a
    positive abscissa, the gain is positive and the rest of the call is
    well formed, the call returns whether or not it has a label: the angle
    it returns is 0 whatever the ordinates, and the summit is [nan]. *)
Theorem zero_abscissa_on_log_axis (fig : Figure) (ax : Axes)
    (p1 p2 : f64 * f64) (l0 l1 a2 k : R) (bool_auto : bool)
    (str_text : string) (int_line_num : Z) :
  contains_log (xaxis_scale ax) = true ->
  get_xlim ax = (Fin l0, Fin l1) -> (0 < l0 < l1)%R ->
  fst p1 = Fin 0 -> fst p2 = Fin a2 -> (0 < a2)%R -> (0 < k)%R ->
  is_positive (dpi fig) ->
  is_positive (fst (window_extent ax)) ->
  is_positive (snd (window_extent ax)) ->
  valid_axis (yaxis_scale ax) (get_ylim ax) (snd p1) (snd p2) ->
  exists ds res,
    curlyBrace fig ax p1 p2 (Fin k) bool_auto str_text int_line_num
    = (ds, inr res) /\
    theta res = Fin 0 /\ summit res = (NaN, NaN).
Proof.
  intros Hlog Hlim Hl Hp1 Hp2 Ha2 Hk Hd Hw Hh Hy.
  destruct (ax_size_positive fig ax Hd Hw Hh) as [Pw Ph].
  destruct (axis_valid _ _ _ bool_auto _ _ Ph Hy)
    as (ly & sy & Y1 & Y2 & _ & _ & _ & HY1 & HY2 & _).
  apply is_positive_Fin in Pw as (e & He & Hepos).
  assert (Hfr : exists X2,
             pt1 (frame fig ax p1 p2 bool_auto) = (NInf, Fin Y1) /\
             pt2 (frame fig ax p1 p2 bool_auto) = (Fin X2, Fin Y2)).
  { rewrite frame_by_axis. cbn [pt1 pt2]. rewrite HY1, HY2.
    unfold axis_pixel, axis_coord, axis_lim, axis_ratio.
    rewrite Hlog, Hlim, Hp1, Hp2, He. cbn [fst snd].
    rewrite log_zero, (log_Fin l0), (log_Fin l1), (log_Fin a2) by lra.
    assert (Hln : (0 < ln l1 - ln l0)%R).
    { assert (ln l0 < ln l1)%R by (apply ln_increasing; lra). lra. }
    assert (Hs : exists s, (0 < s)%R /\
               (if bool_auto then Fin e / (Fin (ln l1) - Fin (ln l0)) else Fin 1)
               = Fin s).
    { destruct bool_auto.
      - exists (e / (ln l1 - ln l0))%R. split.
        + now apply Rdiv_lt_0_compat.
        + change (Fin (ln l1) - Fin (ln l0)) with (Fin (ln l1 - ln l0)).
          apply div_Fin. lra.
      - exists 1%R. split; [lra | reflexivity]. }
    destruct Hs as (s & Hspos & ->).
    exists ((ln a2 - ln l0) * s)%R. split; [| reflexivity].
    f_equal. unfold np.sub. cbn [np.neg np.add np.mul].
    apply inf_of_sign_neg. lra. }
  destruct Hfr as (X2 & E1 & E2).
  destruct (pixel_arcs_left_infinite Y1 X2 Y2 k Hk) as (Ha & Hax & Hay).
  assert (Hth : theta (snd (brace fig ax p1 p2 (Fin k) bool_auto)) = Fin 0)
    by (now rewrite brace_theta, E1, E2).
  eexists _, _.
  split;
    [exact (curlyBrace_finite_angle _ _ _ _ _ _ _ _ 0 (positive_dpi fig Hd) Hth)
    |].
  split; [exact Hth |].
  unfold brace. cbn [snd summit]. rewrite E1, E2. unfold axis_arcs.
  cbn [arc2x arc2y]. rewrite Hax, Hay, !to_axis_repeat, !back_NaN.
  reflexivity.
Qed.

Lemma zero_abscissa_on_log_axis_witness :
  exists ds res,
    curlyBrace fig0 ax_logx (Fin 0, Fin 0) (Fin 10, Fin 1) (Fin (1 / 10)) true
      "Span" 2 = (ds, inr res) /\
    theta res = Fin 0 /\ summit res = (NaN, NaN).
Proof.
  apply (zero_abscissa_on_log_axis fig0 ax_logx (Fin 0, Fin 0) (Fin 10, Fin 1)
           1 100 10 (1 / 10) true "Span" 2); try reflexivity; simpl; try lra.
  unfold valid_axis; simpl. valid_conjuncts.
Defined.

(** ** A negative coordinate on a logarithmic axis, with a label *)

(** X14. On a figure with positive dots per inch, when an axis is
    logarithmic, an end point has a negative coordinate on that axis and
    the label text is not empty, the call ends on the unassigned rotation:
    it raises after having issued the six line plots, draws no text and
    returns nothing. *)
Theorem labelled_negative_on_log_axis (fig : Figure) (ax : Axes)
    (p1 p2 : f64 * f64) (k_r : f64) (bool_auto : bool) (str_text : string)
    (int_line_num : Z) (a : R) :
  is_positive (dpi fig) ->
  (a < 0)%R ->
  (contains_log (xaxis_scale ax) = true /\
   (fst p1 = Fin a \/ fst p2 = Fin a)) \/
  (contains_log (yaxis_scale ax) = true /\
   (snd p1 = Fin a \/ snd p2 = Fin a)) ->
  truthy str_text = true ->
  let out := curlyBrace fig ax p1 p2 k_r bool_auto str_text int_line_num in
  snd out = inl UnboundLocalError /\
  fst out = fst (brace fig ax p1 p2 k_r bool_auto) /\
  List.length (fst out) = 6%nat /\
  drawn_label (fst out) = None.
Proof.
  intros Hpos Ha Hax Ht out.
  assert (Hth : theta (snd (brace fig ax p1 p2 k_r bool_auto)) = NaN).
  { rewrite brace_theta. destruct Hax as [[Hlog Hp] | [Hlog Hp]].
    - now apply (angle_NaN_logx _ _ _ _ _ a).
    - now apply (angle_NaN_logy _ _ _ _ _ a). }
  subst out.
  rewrite (curlyBrace_unbound_rotation _ _ _ _ _ _ _ _
             (positive_dpi fig Hpos) Hth Ht).
  cbn [fst snd]. repeat split.
Qed.

Lemma labelled_negative_on_log_axis_witness :
  is_positive (dpi fig0) /\
  (- 1 < 0)%R /\
  truthy "Span" = true /\
  snd (curlyBrace fig0 ax_logx (Fin (- 1), Fin 0) (Fin 10, Fin 1)
         (Fin (1 / 10)) true "Span" 2)
  = inl UnboundLocalError.
Proof.
  assert (Hpos : is_positive (dpi fig0)) by (simpl; lra).
  assert (Ha : (- 1 < 0)%R) by lra.
  split; [exact Hpos |]. split; [exact Ha |]. split; [reflexivity |].
  apply (labelled_negative_on_log_axis fig0 ax_logx (Fin (- 1), Fin 0)
           (Fin 10, Fin 1) (Fin (1 / 10)) true "Span" 2 (- 1) Hpos Ha).
  - left. split; [reflexivity | now left].
  - reflexivity.
Defined.
